(** * Shallow embedding of the screenpipe-audio pipeline

    Sources: [screenpipe-audio/src/core.rs], [screenpipe-audio/src/stt/mod.rs],
    [screenpipe-audio/src/stt/engines/{mod,deepgram,restpipe}.rs] and
    [screenpipe-audio/src/bin/screenpipe-audio.rs].

    Modelling conventions:
    - Rust [String]/[&str] values are lists of ASCII characters ([rstring]).
    - PCM samples ([f32]) are rationals [Q]: the arithmetic the code performs
      on them is kept, IEEE rounding is abstracted away.
    - [anyhow::Error] is a record carrying its [Display] text and whether it
      can be downcast to [SttErrorKind::NoSpeech].
    - tokio channels are FIFO queues with an open/closed flag; the watch
      channel is a value with a version counter. *)

From Stdlib Require Import Ascii String List Bool Arith ZArith NArith QArith Lia.
Import ListNotations.
Open Scope nat_scope.
Set Warnings "-register-all".
Open Scope list_scope.

(* ------------------------------------------------------------------ *)
(** ** Strings *)

Definition rstring := list ascii.

Definition lit (s : string) : rstring := list_ascii_of_string s.

(** [char::is_whitespace] restricted to ASCII. *)
Definition is_whitespace (c : ascii) : bool :=
  existsb (Nat.eqb (nat_of_ascii c)) [9; 10; 11; 12; 13; 32].

Fixpoint trim_start (s : rstring) : rstring :=
  match s with
  | [] => []
  | c :: s' => if is_whitespace c then trim_start s' else s
  end.

Definition trim_end (s : rstring) : rstring := rev (trim_start (rev s)).

(** [str::trim]: strip whitespace at both ends. *)
Definition trim (s : rstring) : rstring := trim_start (trim_end s).

Fixpoint rstring_eqb (a b : rstring) : bool :=
  match a, b with
  | [], [] => true
  | c :: a', d :: b' => Ascii.eqb c d && rstring_eqb a' b'
  | _, _ => false
  end.

Definition is_empty (s : rstring) : bool :=
  match s with [] => true | _ => false end.

(** [char::to_ascii_lowercase], which is [to_lowercase] on ASCII. *)
Definition ascii_lower (c : ascii) : ascii :=
  let n := nat_of_ascii c in
  if (65 <=? n) && (n <=? 90) then ascii_of_nat (n + 32) else c.

Definition to_lowercase (s : rstring) : rstring := map ascii_lower s.

Fixpoint strip_prefix (p s : rstring) : option rstring :=
  match p, s with
  | [], _ => Some s
  | c :: p', d :: s' => if Ascii.eqb c d then strip_prefix p' s' else None
  | _ :: _, [] => None
  end.

Definition starts_with (s p : rstring) : bool :=
  match strip_prefix p s with Some _ => true | None => false end.

Definition ends_with (s p : rstring) : bool := starts_with (rev s) (rev p).

(** [str::contains] for a string pattern. *)
Fixpoint contains (s p : rstring) : bool :=
  starts_with s p || match s with [] => false | _ :: s' => contains s' p end.

(** Repeated removal of a prefix; [fuel] bounds the number of removals. *)
Fixpoint trim_start_matches_fuel (fuel : nat) (p s : rstring) : rstring :=
  match fuel with
  | O => s
  | S f =>
      match p with
      | [] => s
      | _ :: _ =>
          match strip_prefix p s with
          | Some s' => trim_start_matches_fuel f p s'
          | None => s
          end
      end
  end.

(** [str::trim_end_matches] with a string pattern: every removal shortens
    the string, so [length s + 1] rounds of removal are enough. *)
Definition trim_end_matches (s p : rstring) : rstring :=
  rev (trim_start_matches_fuel (S (length s)) (rev p) (rev s)).

(* ------------------------------------------------------------------ *)
(** ** Results and errors *)

Inductive result (A E : Type) : Type :=
| Ok : A -> result A E
| Err : E -> result A E.
Arguments Ok {A E} _.
Arguments Err {A E} _.

(** An [anyhow::Error]: its [Display] text, and whether
    [downcast_ref::<SttErrorKind>()] finds [SttErrorKind::NoSpeech]. *)
Record Error := mk_error { err_msg : rstring; err_no_speech : bool }.

Definition anyhow (msg : rstring) : Error := mk_error msg false.

(* ------------------------------------------------------------------ *)
(** ** core.rs: [AudioDevice] *)

Inductive DeviceType := Input | Output.

Record AudioDevice := mk_device { name : rstring; device_type : DeviceType }.

Definition device_type_eqb (a b : DeviceType) : bool :=
  match a, b with Input, Input | Output, Output => true | _, _ => false end.

(** [AudioDevice::from_name] *)
Definition from_name (n : rstring) : result AudioDevice Error :=
  if is_empty (trim n) then Err (anyhow (lit "Device name cannot be empty"))
  else if ends_with (to_lowercase n) (lit "(input)") then
    Ok (mk_device (trim (trim_end_matches n (lit "(input)"))) Input)
  else if ends_with (to_lowercase n) (lit "(output)") then
    Ok (mk_device (trim (trim_end_matches n (lit "(output)"))) Output)
  else Err (anyhow (lit "Device type (input/output) not specified in the name")).

(** [impl fmt::Display for AudioDevice]: ["{} ({})"]. *)
Definition device_to_string (d : AudioDevice) : rstring :=
  name d ++ lit " (" ++
  match device_type d with Input => lit "input" | Output => lit "output" end
  ++ lit ")".

(* ------------------------------------------------------------------ *)
(** ** deepgram.rs: JSON handling of the response *)

(** [serde_json::Value]; an object is its (key-unique) list of entries. *)
Inductive Value :=
| VNull
| VBool (b : bool)
| VNumber (n : Z)
| VString (s : rstring)
| VArray (l : list Value)
| VObject (m : list (rstring * Value)).

Fixpoint assoc_get (k : rstring) (m : list (rstring * Value)) : option Value :=
  match m with
  | [] => None
  | (k', v) :: m' => if rstring_eqb k k' then Some v else assoc_get k m'
  end.

(** [Value::get(&str)]: only objects have fields. *)
Definition value_get (v : Value) (k : rstring) : option Value :=
  match v with VObject m => assoc_get k m | _ => None end.

(** [impl Index<&str> for Value]: [Null] when absent or not an object. *)
Definition index_key (v : Value) (k : rstring) : Value :=
  match value_get v k with Some w => w | None => VNull end.

(** [impl Index<usize> for Value]: [Null] when out of range or not an array. *)
Definition index_nat (v : Value) (i : nat) : Value :=
  match v with VArray l => nth i l VNull | _ => VNull end.

Definition as_str (v : Value) : option rstring :=
  match v with VString s => Some s | _ => None end.

Definition unwrap_or {A} (o : option A) (d : A) : A :=
  match o with Some a => a | None => d end.

Section Deepgram.
(** The [{:?}] renderings of errors and JSON values. *)
Variable debug_error : Error -> rstring.
Variable debug_value : Value -> rstring.

(** [result["results"]["channels"][0]["alternatives"][0]["transcript"]] *)
Definition transcript_path (result : Value) : Value :=
  index_key (index_nat (index_key (index_nat (index_key
    (index_key result (lit "results")) (lit "channels")) 0)
    (lit "alternatives")) 0) (lit "transcript").

(** The part of [DeepgramEngine::transcribe_with_deepgram] after the
    request: [response] is the outcome of [send()], nested with the outcome
    of [resp.json::<Value>()]. *)
Definition transcribe_with_deepgram_response
    (response : result (result Value Error) Error) : result rstring Error :=
  match response with
  | Ok parsed =>
      match parsed with
      | Ok result =>
          match value_get result (lit "err_code") with
          | Some _ => Err (anyhow (lit "Deepgram API error: " ++ debug_value result))
          | None => Ok (unwrap_or (as_str (transcript_path result)) [])
          end
      | Err e => Err (anyhow (lit "Failed to parse JSON response: " ++ debug_error e))
      end
  | Err e => Err (anyhow (lit "Failed to send request to Deepgram API: " ++ debug_error e))
  end.
End Deepgram.

(* ------------------------------------------------------------------ *)
(** ** stt/mod.rs: data model *)

(** [m::SAMPLE_RATE], the rate Whisper expects. *)
Definition SAMPLE_RATE : N := 16000.

Record AudioInput := mk_input {
  data : list Q;
  sample_rate : N;
  channels : nat;
  device : rstring
}.

Record TranscriptionResult := mk_result {
  path : rstring;
  input : AudioInput;
  transcription : option rstring;
  timestamp : N;
  error : option rstring
}.

Inductive RecordingState :=
| Initializing
| Recording
| RecordingPaused
| RecordingFinished
| Stopping
| Draining.

Definition state_eqb (a b : RecordingState) : bool :=
  match a, b with
  | Initializing, Initializing | Recording, Recording
  | RecordingPaused, RecordingPaused | RecordingFinished, RecordingFinished
  | Stopping, Stopping | Draining, Draining => true
  | _, _ => false
  end.

(** [<[T]>::chunks(n)] for [n > 0]: consecutive slices of [n] elements, the
    last one possibly shorter. Every round removes at least one element, so
    [length l] rounds are enough. *)
Fixpoint chunks_fuel {A} (fuel n : nat) (l : list A) : list (list A) :=
  match fuel with
  | O => []
  | S f =>
      match l with
      | [] => []
      | _ :: _ => firstn n l :: chunks_fuel f n (skipn n l)
      end
  end.

Definition chunks {A} (n : nat) (l : list A) : list (list A) :=
  chunks_fuel (List.length l) n l.

Definition is_nil {A} (l : list A) : bool :=
  match l with [] => true | _ :: _ => false end.

Definition Qsum (l : list Q) : Q := fold_right Qplus 0%Q l.

Definition Q_of_nat (n : nat) : Q := inject_Z (Z.of_nat n).
Definition Q_of_N (n : N) : Q := inject_Z (Z.of_N n).

(** The arithmetic mean of a list of samples. *)
Definition mean (l : list Q) : Q := (Qsum l / Q_of_nat (List.length l))%Q.

(* ------------------------------------------------------------------ *)
(** ** stt/mod.rs: WAV packaging *)

(** [cpal::SampleFormat] *)
Inductive SampleFormat := I8 | I16 | I32 | I64 | U8 | U16 | U32 | U64 | F32 | F64.

(** [hound::SampleFormat] *)
Inductive HoundFormat := HInt | HFloat.

(** [hound::WavSpec]: what the RIFF header of the written file records. *)
Record WavSpec := mk_spec {
  spec_channels : nat;
  spec_sample_rate : N;
  bits_per_sample : nat;
  spec_sample_format : HoundFormat
}.

Inductive WavData := IntSamples (l : list Z) | FloatSamples (l : list Q).

(** A WAV file as written by [WavWriter]: its header and its samples. *)
Record Wav := mk_wav { wav_spec : WavSpec; wav_data : WavData }.

Definition get_wav_format (sf : SampleFormat) : result (nat * HoundFormat) Error :=
  match sf with
  | I16 => Ok (16, HInt)
  | F32 => Ok (32, HFloat)
  | _ => Err (anyhow (lit "Unsupported sample format"))
  end.

(** [f32::clamp(-32768.0, 32767.0)] *)
Definition clamp_i16 (v : Q) : Q :=
  if Qle_bool v (-32768)%Q then (-32768)%Q
  else if Qle_bool 32767%Q v then 32767%Q else v.

(** [(sample * 32767.0).clamp(..) as i16]: the cast truncates toward zero. *)
Definition to_i16 (sample : Q) : Z :=
  let c := clamp_i16 (sample * 32767)%Q in Z.quot (Qnum c) (Zpos (Qden c)).

(** [write_samples] *)
Definition write_samples (audio_data : list Q) (fmt : HoundFormat) : WavData :=
  match fmt with
  | HInt => IntSamples (map to_i16 audio_data)
  | HFloat => FloatSamples audio_data
  end.

(** How a call ends: it returns, or it panics (an [expect], a slice out of
    range or a remainder by zero). *)
Inductive Outcome (A : Type) :=
| Returned (r : result A Error)
| Panicked (msg : rstring).
Arguments Returned {A} _.
Arguments Panicked {A} _.

(** hound's [Error::UnfinishedSample], through [anyhow]. *)
Definition unfinished_sample : Error :=
  anyhow (lit "the number of samples written is not a multiple of the number of channels").

(** [WavWriter::finalize] of hound after [n_samples] calls of [write_sample]:
    [update_header] counts the bytes written in the [u32]
    [data_bytes_written] (wrapping), then fails with [UnfinishedSample]
    when [data_bytes_written / bytes_per_sample] is not a multiple of
    [spec.channels as u32]; with [channels = 0] that remainder panics. *)
Definition wav_finalize (n_samples bits channels : nat) : Outcome unit :=
  let bytes_per_sample := N.of_nat ((bits + 7) / 8) in
  let data_bytes_written := ((N.of_nat n_samples * bytes_per_sample) mod 2 ^ 32)%N in
  if Nat.eqb channels 0
  then Panicked (lit "attempt to calculate the remainder with a divisor of zero")
  else if N.eqb ((data_bytes_written / bytes_per_sample) mod N.of_nat channels) 0
  then Returned (Ok tt)
  else Returned (Err unfinished_sample).

(** [create_wav]: [WavWriter::new] on an in-memory cursor, [write_samples],
    then [finalize]. *)
Definition create_wav (audio_data : list Q) (sample_rate : N) (channels : nat)
    (sf : SampleFormat) : Outcome Wav :=
  match get_wav_format sf with
  | Err e => Returned (Err e)
  | Ok (bits, fmt) =>
      match wav_finalize (List.length audio_data) bits channels with
      | Returned (Ok _) =>
          Returned (Ok (mk_wav (mk_spec channels sample_rate bits fmt)
                          (write_samples audio_data fmt)))
      | Returned (Err e) => Returned (Err e)
      | Panicked msg => Panicked msg
      end
  end.

(* ------------------------------------------------------------------ *)
(** ** stt/mod.rs and stt/engines: resampling, [perform_stt], [handle_stt] *)

(** An STT engine's [transcribe(audio_data, sample_rate, channels, device_name)]. *)
Definition Engine := list Q -> N -> nat -> rstring -> result rstring Error.

(** [stt::engines::restpipe::RestPipeEngine] *)
Record RestPipeEngine := mk_restpipe {
  url : rstring;
  headers : list (rstring * rstring);
  payload_field : option rstring;
  resample_to_rate : option N
}.

Definition sanitize_char (c : ascii) : ascii :=
  if existsb (Ascii.eqb c) [" "; ":"; "/"; "\"]%char then "_"%char else c.

(** [Path::join] on Unix ([PathBuf::push]): an absolute [file] replaces the
    path; otherwise a ['/'] is inserted only when [dir] is non-empty and does
    not already end with one. *)
Definition path_join (dir file : rstring) : rstring :=
  match file with
  | c :: _ => if Ascii.eqb c "/" then file else
      match rev dir with
      | [] => file
      | d :: _ => if Ascii.eqb d "/" then dir ++ file else dir ++ "/"%char :: file
      end
  | [] =>
      match rev dir with
      | [] => file
      | d :: _ => if Ascii.eqb d "/" then dir ++ file else dir ++ "/"%char :: file
      end
  end.

Definition no_speech_error : Error :=
  mk_error (lit "No speech detected in the audio") true.

Section Pipeline.
(** [SincFixedIn::<f32>::new(ratio, max_relative_ratio, params, chunk_size,
    nbr_channels)] followed by [process(&waves_in, None)]: the rubato sinc
    resampler (sinc length 256, cutoff 0.95, oversampling 256,
    Blackman-Harris, linear interpolation), used as an opaque capability. *)
Variable sinc_fixed_in_process :
  Q -> Q -> nat -> nat -> list (list Q) -> result (list (list Q)) Error.

(** State of the VAD engine and [VadEngine::is_voice_segment(&mut self, frame)]. *)
Variable VS : Type.
Variable is_voice_segment : VS -> list Q -> VS * result bool Error.

(** [encode_single_audio(data, sample_rate, channels, path)] (MP4 encoding). *)
Variable encode_single_audio : list Q -> N -> nat -> rstring -> result unit Error.

(** [Utc::now().format("%Y-%m-%d_%H-%M-%S")] at the time of the call. *)
Variable now_str : rstring.

(** The [{:?}] rendering of an error. *)
Variable debug_error : Error -> rstring.

(** The down-mix of [resample]: every frame of [input_channels] interleaved
    samples becomes the sum of its samples (as f64) over [input_channels]. *)
Definition downmix (input_channels : nat) (input : list Q) : list Q :=
  map (fun frame => (Qsum frame / Q_of_nat input_channels)%Q) (chunks input_channels input).

(** [resample] *)
Definition resample (input : list Q) (input_channels : nat) (from_sample_rate to_sample_rate : N)
    : result (list Q) Error :=
  let mono_input := if 1 <? input_channels then downmix input_channels input else input in
  match sinc_fixed_in_process (Q_of_N to_sample_rate / Q_of_N from_sample_rate)%Q 2%Q
          (List.length mono_input) 1 [mono_input] with
  | Err e => Err e
  | Ok waves_out =>
      match waves_out with
      | resampled :: _ => Ok resampled
      | [] => Err (anyhow (lit "No resampled data produced"))
      end
  end.

(** The WAV body built by [RestPipeEngine::transcribe] before it is posted. *)
Definition restpipe_wav (self : RestPipeEngine) (audio_data : list Q) (sample_rate : N)
    (channels : nat) : Outcome Wav :=
  let prepared :=
    match resample_to_rate self with
    | Some to_rate =>
        if negb (N.eqb to_rate sample_rate) then
          match resample audio_data channels sample_rate to_rate with
          | Ok d => Ok (d, 1)
          | Err e => Err e
          end
        else Ok (audio_data, channels)
    | None => Ok (audio_data, channels)
    end in
  match prepared with
  | Err e => Returned (Err e)
  | Ok (data, new_channels) => create_wav data sample_rate new_channels I16
  end.

(** [RestPipeEngine::transcribe]; [transcribe_with_restpipe] is the HTTP
    round trip with the WAV body. *)
Definition restpipe_transcribe (transcribe_with_restpipe : Wav -> result rstring Error)
    (self : RestPipeEngine) (audio_data : list Q) (sample_rate : N) (channels : nat)
    (device_name : rstring) : Outcome rstring :=
  match restpipe_wav self audio_data sample_rate channels with
  | Returned (Err e) => Returned (Err e)
  | Panicked msg => Panicked msg
  | Returned (Ok wav) => Returned (transcribe_with_restpipe wav)
  end.

(** The VAD loop of [perform_stt]: voiced frames are appended to
    [speech_frames]; a frame whose VAD call fails is skipped. *)
Fixpoint vad_filter (vs : VS) (frames : list (list Q)) (speech_frames : list Q)
    : VS * list Q :=
  match frames with
  | [] => (vs, speech_frames)
  | chunk :: rest =>
      let (vs', r) := is_voice_segment vs chunk in
      vad_filter vs' rest
        (match r with Ok true => speech_frames ++ chunk | _ => speech_frames end)
  end.

(** The samples and channel count handed to the VAD, after resampling. *)
Definition stt_audio (a : AudioInput) : result (list Q * nat) Error :=
  if negb (N.eqb (sample_rate a) SAMPLE_RATE) then
    match resample (data a) (channels a) (sample_rate a) SAMPLE_RATE with
    | Ok d => Ok (d, 1)
    | Err e => Err e
    end
  else Ok (data a, channels a).

(** [PathBuf::from(output_path).join(format!("{}_{}.mp4",
    sanitized_device_name, new_file_name))] *)
Definition mp4_file_path (out : rstring) (a : AudioInput) : rstring :=
  path_join out (map sanitize_char (device a) ++ lit "_" ++ now_str ++ lit ".mp4").

(** [perform_stt] *)
Definition perform_stt (vs : VS) (a : AudioInput) (primary_engine : Engine)
    (fallback_engine : option Engine) (output_path : option rstring)
    : VS * result (rstring * option rstring) Error :=
  match stt_audio a with
  | Err e => (vs, Err e)
  | Ok (audio_data, new_channels) =>
      let (vs', speech_frames) := vad_filter vs (chunks 160 audio_data) [] in
      if is_nil speech_frames then (vs', Err no_speech_error)
      else
        let transcription :=
          match primary_engine speech_frames SAMPLE_RATE new_channels (device a) with
          | Ok r => Ok r
          | Err e =>
              match fallback_engine with
              | Some f => f speech_frames SAMPLE_RATE new_channels (device a)
              | None => Err (anyhow (lit "Primary engine failed and no fallback configured: "
                                     ++ debug_error e))
              end
          end in
        (vs',
         match transcription with
         | Err e => Err e
         | Ok t =>
             match output_path with
             | Some out =>
                 let file_path := mp4_file_path out a in
                 match encode_single_audio (data a) (sample_rate a) (channels a) file_path with
                 | Ok _ => Ok (t, Some file_path)
                 | Err e => Err e
                 end
             | None => Ok (t, None)
             end
         end)
  end.

(** [handle_stt]: the result handed to the egress channel and the state
    published on the bus ([RecordingFinished] on [NoSpeech]). *)
Definition handle_stt (vs : VS) (a : AudioInput) (primary_engine : Engine)
    (fallback_engine : option Engine) (output_path : option rstring) (ts : N)
    : VS * (TranscriptionResult * option RecordingState) :=
  let (vs', r) := perform_stt vs a primary_engine fallback_engine output_path in
  (vs',
   match r with
   | Ok (t, p) => (mk_result (unwrap_or p []) a (Some t) ts None, None)
   | Err e =>
       (mk_result [] a None ts (Some (err_msg e)),
        if err_no_speech e then Some RecordingFinished else None)
   end).
End Pipeline.

(* ------------------------------------------------------------------ *)
(** ** core.rs: the capture stream built by [build_stream] *)

(** [std::time::Duration]; [as_secs] drops the sub-second part. *)
Record Duration := mk_duration { secs : N; nanos : N }.

Definition as_secs (d : Duration) : N := secs d.

(** [usize] multiplication on a 64-bit target, wrapping as in release builds. *)
Definition usize_mul (a b : N) : N := N.modulo (a * b) (2 ^ 64).

(** [(chunk_duration.as_secs() as usize) * config.sample_rate.0 as usize
    * config.channels as usize] *)
Definition chunk_threshold (chunk_duration : Duration) (sample_rate : N) (channels : nat) : N :=
  usize_mul (usize_mul (as_secs chunk_duration) sample_rate) (N.of_nat channels).

(** The state shared by the input callback: the [audio_data] buffer, the
    chunks sent on [tx] so far, and the [is_running] flag. *)
Record Capture := mk_capture {
  audio_data : list Q;
  sent : list (list Q);
  is_running : bool
}.

(** What can happen to a capture stream: the hardware delivers a block of
    [f32] samples, or [is_running] is cleared (by the recorder when it leaves
    its loop, or by the error callback on "device is no longer valid"), after
    which the polling thread pauses and drops the stream. *)
Inductive CaptureEvent :=
| Callback (block : list Q)
| ClearRunning.

(** The data callback of [build_stream::<f32>] ([bytemuck::cast_slice] is the
    identity on [f32] data). *)
Definition input_callback (threshold : N) (c : Capture) (block : list Q) : Capture :=
  if negb (is_running c) then c
  else
    let buffer := audio_data c ++ block in
    if N.leb threshold (N.of_nat (List.length buffer))
    then mk_capture [] (sent c ++ [buffer]) true    (* buffer.split_off(0) *)
    else mk_capture buffer (sent c) true.

Definition capture_event (threshold : N) (c : Capture) (e : CaptureEvent) : Capture :=
  match e with
  | Callback block => input_callback threshold c block
  | ClearRunning => mk_capture (audio_data c) (sent c) false
  end.

Definition run_capture (threshold : N) (c : Capture) (es : list CaptureEvent) : Capture :=
  fold_left (capture_event threshold) es c.

Definition capture_init : Capture := mk_capture [] [] true.

(** The samples the callback accepted: the blocks delivered before the flag
    was first cleared. *)
Fixpoint accepted (es : list CaptureEvent) : list Q :=
  match es with
  | [] => []
  | Callback b :: es' => b ++ accepted es'
  | ClearRunning :: _ => []
  end.

(* ------------------------------------------------------------------ *)
(** ** core.rs: the loop of [record_and_transcribe] *)

(** Where the recorder is: testing the [while] condition, awaiting
    [rx.recv()], or past the loop (flag cleared, capture thread joined). *)
Inductive RecPc := RLoopTest | RAwaitChunk | RDone.

Record Recorder := mk_recorder {
  rec_state : RecordingState;       (* the value [state_rx.borrow()] reads *)
  rec_chunks : list (list Q);       (* chunks queued on the capture channel [rx] *)
  rec_chunks_open : bool;           (* the capture thread still holds [tx] *)
  rec_pc : RecPc;
  rec_forwarded : list AudioInput;  (* sent on [whisper_sender], in order *)
  rec_capture_running : bool        (* [is_running] *)
}.

Inductive RecEvent :=
| RecStep                            (* the recorder task runs one step *)
| RecPublish (s : RecordingState)    (* a [state_tx.send(s)] elsewhere *)
| RecChunk (c : list Q).             (* the capture callback sends a chunk *)

Definition rec_step (dev : rstring) (rate : N) (ch : nat) (r : Recorder) : Recorder :=
  match rec_pc r with
  | RLoopTest =>
      if state_eqb (rec_state r) Recording
      then mk_recorder (rec_state r) (rec_chunks r) (rec_chunks_open r) RAwaitChunk
             (rec_forwarded r) (rec_capture_running r)
      else mk_recorder (rec_state r) (rec_chunks r) (rec_chunks_open r) RDone
             (rec_forwarded r) false
  | RAwaitChunk =>
      match rec_chunks r with
      | chunk :: rest =>
          mk_recorder (rec_state r) rest (rec_chunks_open r) RLoopTest
            (rec_forwarded r ++ [mk_input chunk rate ch dev]) (rec_capture_running r)
      | [] =>
          if rec_chunks_open r then r   (* suspended in [rx.recv().await] *)
          else mk_recorder (rec_state r) [] false RLoopTest
                 (rec_forwarded r) (rec_capture_running r)
      end
  | RDone => r
  end.

Definition rec_event (dev : rstring) (rate : N) (ch : nat) (r : Recorder) (e : RecEvent)
    : Recorder :=
  match e with
  | RecStep => rec_step dev rate ch r
  | RecPublish s =>
      mk_recorder s (rec_chunks r) (rec_chunks_open r) (rec_pc r)
        (rec_forwarded r) (rec_capture_running r)
  | RecChunk c =>
      if rec_capture_running r
      then mk_recorder (rec_state r) (rec_chunks r ++ [c]) (rec_chunks_open r) (rec_pc r)
             (rec_forwarded r) (rec_capture_running r)
      else r
  end.

Definition run_recorder (dev : rstring) (rate : N) (ch : nat) (r : Recorder)
    (es : list RecEvent) : Recorder :=
  fold_left (rec_event dev rate ch) es r.

(* ------------------------------------------------------------------ *)
(** ** engines/mod.rs: the STT worker spawned by [create_comm_channel] *)

(** Where the worker is: at the top of its [loop] (the [has_changed] test),
    in the [tokio::select!] on [input_receiver.recv()], or past the loop. *)
Inductive WorkerPc := WLoopTop | WSelect | WExited.

Section Worker.
Variable VS : Type.
(** One [handle_stt] call with the worker's engines, output path and
    timestamp: the new VAD state, the result and the state it publishes. *)
Variable handle : VS -> AudioInput -> VS * (TranscriptionResult * option RecordingState).

Record Sys := mk_sys {
  bus_val : RecordingState;        (* current value of the watch channel *)
  bus_version : nat;               (* number of [send]s so far *)
  ingress : list AudioInput;       (* queued on [input_receiver] *)
  ingress_open : bool;             (* some [UnboundedSender<AudioInput>] alive *)
  egress : list TranscriptionResult;
  egress_open : bool;              (* the [output_receiver] is alive *)
  wpc : WorkerPc;
  wvad : VS;
  dequeued : list AudioInput       (* inputs received by the worker, in order *)
}.

Definition set_wpc (s : Sys) (pc : WorkerPc) : Sys :=
  mk_sys (bus_val s) (bus_version s) (ingress s) (ingress_open s) (egress s)
    (egress_open s) pc (wvad s) (dequeued s).

(** [state_rx_clone] is cloned from the fresh receiver, so it has seen
    version 0; [borrow()] does not mark the value as seen. *)
Definition has_changed (s : Sys) : bool := negb (Nat.eqb (bus_version s) 0).

Definition worker_step (s : Sys) : Sys :=
  match wpc s with
  | WLoopTop =>
      if has_changed s && state_eqb (bus_val s) Stopping
      then set_wpc s WExited                        (* break *)
      else set_wpc s WSelect
  | WSelect =>
      match ingress s with
      | a :: rest =>
          let (vs', out) := handle (wvad s) a in
          let (res, pub) := out in
          let (v, ver) := match pub with
                          | Some st => (st, S (bus_version s))
                          | None => (bus_val s, bus_version s)
                          end in
          if egress_open s
          then mk_sys v ver rest (ingress_open s) (egress s ++ [res]) true
                 WLoopTop vs' (dequeued s ++ [a])
          else mk_sys v ver rest (ingress_open s) (egress s) false
                 WExited vs' (dequeued s ++ [a])          (* send failed: break *)
      | [] =>
          if ingress_open s then s                         (* awaiting recv() *)
          else set_wpc s WExited                           (* else => break *)
      end
  | WExited => s
  end.

Inductive Event :=
| EWorker                          (* the worker task runs one step *)
| EPublish (st : RecordingState)   (* [state_tx.send(st)] by another actor *)
| ESend (a : AudioInput)           (* a recorder sends an input *)
| ECloseIngress                    (* the last input sender is dropped *)
| ECloseEgress.                    (* the output receiver is dropped *)

Definition sys_event (s : Sys) (e : Event) : Sys :=
  match e with
  | EWorker => worker_step s
  | EPublish st =>
      mk_sys st (S (bus_version s)) (ingress s) (ingress_open s) (egress s)
        (egress_open s) (wpc s) (wvad s) (dequeued s)
  | ESend a =>
      match wpc s with
      | WExited => s                                       (* receiver dropped *)
      | _ =>
          if ingress_open s
          then mk_sys (bus_val s) (bus_version s) (ingress s ++ [a]) true (egress s)
                 (egress_open s) (wpc s) (wvad s) (dequeued s)
          else s
      end
  | ECloseIngress =>
      mk_sys (bus_val s) (bus_version s) (ingress s) false (egress s)
        (egress_open s) (wpc s) (wvad s) (dequeued s)
  | ECloseEgress =>
      mk_sys (bus_val s) (bus_version s) (ingress s) (ingress_open s) (egress s)
        false (wpc s) (wvad s) (dequeued s)
  end.

Definition run_sys (s : Sys) (es : list Event) : Sys := fold_left sys_event es s.
End Worker.

Arguments mk_sys {VS}.
Arguments wpc {VS}.
Arguments bus_val {VS}.
Arguments dequeued {VS}.
Arguments ingress {VS}.
Arguments ingress_open {VS}.
Arguments egress_open {VS}.
Arguments has_changed {VS}.
Arguments egress {VS}.

(** The worker as [create_comm_channel] spawns it: the bus freshly created
    with [Initializing], both channels open and empty. *)
Definition worker_init {VS} (vs : VS) : Sys VS :=
  mk_sys Initializing 0 [] true [] true WLoopTop vs [].

(* ------------------------------------------------------------------ *)
(** ** bin/screenpipe-audio.rs: the supervisor after its transcription loop *)

Inductive SupEffect :=
| PublishState (s : RecordingState)  (* [state_tx.send(s)] *)
| DrainEgress                        (* [drain_remaining_transcriptions] *)
| JoinRecorder (i : nat)             (* [thread.await] of recorder [i] *)
| JoinKeyboard.                      (* [kb_task_join_handle.await] *)

(** [shutdown_and_cleanup]: joins the recorders in order; [thread.await??]
    returns early on the first recorder that ended in an error. *)
Fixpoint join_recorders (i : nat) (outcomes : list (result unit Error)) : list SupEffect :=
  match outcomes with
  | [] => [JoinKeyboard]
  | o :: rest =>
      JoinRecorder i ::
      match o with
      | Ok _ => join_recorders (S i) rest
      | Err _ => []
      end
  end.

Definition shutdown_and_cleanup (outcomes : list (result unit Error)) : list SupEffect :=
  join_recorders 0 outcomes.

(** The effects of [main] from the exit of the [loop] of
    [run_transcription_loop]: [state_tx.send(Stopping)], the drain, then
    [shutdown_and_cleanup]. *)
Definition main_shutdown (outcomes : list (result unit Error)) : list SupEffect :=
  [PublishState Stopping; DrainEgress] ++ shutdown_and_cleanup outcomes.

(* ------------------------------------------------------------------ *)
(** ** core.rs: device lookup and listing *)

(** [str::replace] with a non-empty pattern: occurrences are replaced from
    left to right, without overlap. Every round consumes a character, so
    [length s + 1] rounds are enough. *)
Fixpoint replace_fuel (fuel : nat) (s pat to : rstring) : rstring :=
  match fuel with
  | O => s
  | S f =>
      match s with
      | [] => []
      | c :: s' =>
          match strip_prefix pat s with
          | Some r => to ++ replace_fuel f r pat to
          | None => c :: replace_fuel f s' pat to
          end
      end
  end.

Definition replace (s pat to : rstring) : rstring := replace_fuel (S (List.length s)) s pat to.

(** The name [get_device_and_config] compares every cpal device name with:
    [audio_device.to_string().replace(" (input)", "").replace(" (output)", "").trim()]. *)
Definition device_lookup_name (d : AudioDevice) : rstring :=
  trim (replace (replace (device_to_string d) (lit " (input)") []) (lit " (output)") []).

(** The test [audio_device.to_string() == "default"] of [get_device_and_config]. *)
Definition is_default_request (d : AudioDevice) : bool :=
  rstring_eqb (device_to_string d) (lit "default").

(** [should_include_output_device] *)
Definition should_include_output_device (n : rstring) : bool :=
  negb (contains (to_lowercase n) (lit "speakers")) &&
  negb (contains (to_lowercase n) (lit "airpods")).

(** One [for device in ...] loop of [list_audio_devices]: a device whose
    [name()] fails is skipped, the others are kept when [keep] accepts them. *)
Fixpoint collect_devices (keep : rstring -> bool) (dt : DeviceType)
    (names : list (result rstring Error)) : list AudioDevice :=
  match names with
  | [] => []
  | Ok n :: rest =>
      if keep n then mk_device n dt :: collect_devices keep dt rest
      else collect_devices keep dt rest
  | Err _ :: rest => collect_devices keep dt rest
  end.

(** [list_audio_devices] as built off macOS: [host.input_devices()?], then
    [host.output_devices()?], each given as the [name()] outcomes of the
    devices it enumerates. *)
Definition list_audio_devices (input_devices output_devices : result (list (result rstring Error)) Error)
    : result (list AudioDevice) Error :=
  match input_devices with
  | Err e => Err e
  | Ok ins =>
      match output_devices with
      | Err e => Err e
      | Ok outs =>
          Ok (collect_devices (fun _ => true) Input ins ++
              collect_devices should_include_output_device Output outs)
      end
  end.

(* ------------------------------------------------------------------ *)
(** ** engines/mod.rs: [initialize_stt_engines] *)

(** [str::split] on a character: the pieces between separators, [""]
    giving one empty piece. *)
Fixpoint split_on (sep : ascii) (s : rstring) : list rstring :=
  match s with
  | [] => [[]]
  | c :: s' =>
      if Ascii.eqb c sep then [] :: split_on sep s'
      else match split_on sep s' with
           | p :: ps => (c :: p) :: ps
           | [] => [[c]]
           end
  end.

(** A [HashMap<String, String>] as an association list with unique keys
    (its iteration order is not modelled). *)
Definition hm_insert (k v : rstring) (m : list (rstring * rstring)) : list (rstring * rstring) :=
  (k, v) :: filter (fun kv => negb (rstring_eqb (fst kv) k)) m.

Fixpoint hm_get (k : rstring) (m : list (rstring * rstring)) : option rstring :=
  match m with
  | [] => None
  | (k', v) :: m' => if rstring_eqb k k' then Some v else hm_get k m'
  end.

(** One [header] of the loop: [header.split(':').map(str::trim)], inserted
    when there are exactly two parts. *)
Definition add_header (m : list (rstring * rstring)) (header : rstring) : list (rstring * rstring) :=
  match List.map trim (split_on ":" header) with
  | [k; v] => hm_insert k v m
  | _ => m
  end.

(** The [api_headers] map built by [initialize_stt_engines]. *)
Definition parse_api_headers (api_headers : option rstring) : list (rstring * rstring) :=
  match api_headers with
  | Some headers_arg => fold_left add_header (split_on ";" headers_arg) []
  | None => []
  end.

(** A [--api-headers] argument as it is meant to be written,
    ["k1: v1; k2: v2"]: the entries joined with a separator. *)
Fixpoint join_with (sep : rstring) (xs : list rstring) : rstring :=
  match xs with
  | [] => []
  | [x] => x
  | x :: xs' => x ++ sep ++ join_with sep xs'
  end.

Definition header_line (kv : rstring * rstring) : rstring := fst kv ++ lit ": " ++ snd kv.

(** [core::AudioTranscriptionEngine] *)
Inductive AudioTranscriptionEngine := RestPipe | Deepgram | WhisperTiny | WhisperDistilLargeV3.

(** The engine behind a [Box<dyn SttEngine>] returned by [initialize_stt_engines]. *)
Inductive EngineChoice :=
| UseDeepgram (api_key : rstring)
| UseRestPipe (e : RestPipeEngine)
| UseWhisper (m : AudioTranscriptionEngine).

Definition opt_is_some {A} (o : option A) : bool :=
  match o with Some _ => true | None => false end.

Section Engines.
(** [CandleWhisperModel] and its [Tiny] arm. *)
Variable CandleWhisperModel : Type.
Variable is_tiny : CandleWhisperModel -> bool.
(** [WhisperModel::new] and [WhisperEngine::new], which download and load
    the model. *)
Variable WM : Type.
Variable whisper_model_new : AudioTranscriptionEngine -> result WM Error.
Variable whisper_engine_new : WM -> result unit Error.

(** [match m { CandleWhisperModel::Tiny => WhisperTiny, _ => WhisperDistilLargeV3 }] *)
Definition whisper_engine_of (m : CandleWhisperModel) : AudioTranscriptionEngine :=
  if is_tiny m then WhisperTiny else WhisperDistilLargeV3.

(** [Box::new(WhisperEngine::new(WhisperModel::new(Arc::new(m))?)
    .expect("Could not create the WhisperEngine"))] *)
Definition make_whisper (m : AudioTranscriptionEngine) : Outcome EngineChoice :=
  match whisper_model_new m with
  | Err e => Returned (Err e)
  | Ok wm =>
      match whisper_engine_new wm with
      | Ok _ => Returned (Ok (UseWhisper m))
      | Err _ => Panicked (lit "Could not create the WhisperEngine")
      end
  end.

(** [initialize_stt_engines] *)
Definition initialize_stt_engines (local_model : option CandleWhisperModel)
    (api_url api_headers deepgram_api_key : option rstring)
    : Outcome (EngineChoice * option EngineChoice) :=
  let primary_engine :=
    match deepgram_api_key with
    | Some api_key => Returned (Ok (UseDeepgram api_key))
    | None =>
        match api_url with
        | Some u =>
            Returned (Ok (UseRestPipe (mk_restpipe u (parse_api_headers api_headers)
                                         (Some (lit "file")) (Some 16000%N))))
        | None =>
            make_whisper (match local_model with
                          | Some m => whisper_engine_of m
                          | None => WhisperTiny      (* unwrap_or(CandleWhisperModel::Tiny) *)
                          end)
        end
    end in
  match primary_engine with
  | Panicked msg => Panicked msg
  | Returned (Err e) => Returned (Err e)
  | Returned (Ok p) =>
      let fallback_engine :=
        if opt_is_some deepgram_api_key || opt_is_some api_url then
          match local_model with
          | Some m =>
              match make_whisper (whisper_engine_of m) with
              | Returned (Ok w) => Returned (Ok (Some w))
              | Returned (Err e) => Returned (Err e)
              | Panicked msg => Panicked msg
              end
          | None => Returned (Ok None)
          end
        else Returned (Ok None) in
      match fallback_engine with
      | Panicked msg => Panicked msg
      | Returned (Err e) => Returned (Err e)
      | Returned (Ok f) => Returned (Ok (p, f))
      end
  end.
End Engines.

(* ------------------------------------------------------------------ *)
(** ** deepgram.rs: the request and the engine *)




(* ------------------------------------------------------------------ *)
(** ** restpipe.rs: the response of [transcribe_with_restpipe] *)

(** An HTTP response: its status, its [Content-Type] as
    [to_str().unwrap_or("")] reads it (an unreadable value is [""]), and the
    outcomes of [response.json()] and [response.text()]. *)
Record HttpResponse := mk_response {
  status : N;
  content_type : option rstring;
  resp_json : result Value Error;
  resp_text : result rstring Error
}.

(** The part of [transcribe_with_restpipe] after [request.send()];
    [status_display] is the [Display] of a [StatusCode]. *)
Definition transcribe_with_restpipe_response (status_display : N -> rstring)
    (response : result HttpResponse Error) : result rstring Error :=
  match response with
  | Err e => Err (anyhow (lit "Error sending request to RestPipe API: " ++ err_msg e))
  | Ok r =>
      if N.eqb (status r) 200 then
        match content_type r with
        | Some ct =>
            if starts_with ct (lit "application/json") then
              match resp_json r with
              | Ok json => Ok (unwrap_or (as_str (index_key json (lit "text"))) [])
              | Err e => Err e
              end
            else resp_text r
        | None => resp_text r
        end
      else Err (anyhow (lit "RestPipe API error: HTTP " ++ status_display (status r)))
  end.

(* ------------------------------------------------------------------ *)
(** ** bin/screenpipe-audio.rs: keyboard listener and transcription loop *)

(** [device_query::Keycode], the two keys the listener reacts to and the rest. *)
Inductive Keycode := KEnter | KSpace | KOther (n : nat).

Definition keycode_eqb (a b : Keycode) : bool :=
  match a, b with
  | KEnter, KEnter | KSpace, KSpace => true
  | KOther m, KOther n => Nat.eqb m n
  | _, _ => false
  end.

(** The [for key in &new_keys] loop of one tick of
    [start_keyboard_listener_task], from the bus value [st]: the bus value
    afterwards, the states sent, and whether the task returned (on Enter). *)
Fixpoint kb_handle_keys (st : RecordingState) (keys : list Keycode)
    : RecordingState * list RecordingState * bool :=
  match keys with
  | [] => (st, [], false)
  | KEnter :: _ => (RecordingFinished, [RecordingFinished], true)
  | KSpace :: rest =>
      match st with
      | Recording =>
          let '(st', sent, ret) := kb_handle_keys RecordingPaused rest in
          (st', RecordingPaused :: sent, ret)
      | RecordingPaused =>
          let '(st', sent, ret) := kb_handle_keys Recording rest in
          (st', Recording :: sent, ret)
      | _ => kb_handle_keys st rest
      end
  | KOther _ :: rest => kb_handle_keys st rest
  end.

(** The sleep branch of the listener's [select!]: the keys not pressed at
    the previous tick are handled, and [last_keys] becomes [keys]. *)
Definition kb_tick (last_keys keys : list Keycode) (st : RecordingState)
    : list Keycode * (RecordingState * list RecordingState * bool) :=
  let new_keys := filter (fun k => negb (existsb (keycode_eqb k) last_keys)) keys in
  (keys, kb_handle_keys st new_keys).

(** The state of [run_transcription_loop]. *)
Record Loop := mk_loop { buffer : rstring; consecutive_timeouts : nat; loop_done : bool }.

(** One branch of its [select!]: a result received (with the bus value
    [borrow()] reads) or a change of the bus. The [else] branch runs only
    when every branch is disabled; [state_rx.changed()] fails only once
    every sender is dropped, and the function holds [state_tx] for its
    whole run, so that branch never runs and is not an event here. *)
Inductive LoopEvent :=
| LResult (transcription : option rstring) (st : RecordingState)
| LChanged (st : RecordingState).

Definition loop_event (l : Loop) (e : LoopEvent) : Loop :=
  if loop_done l then l
  else
    match e with
    | LResult (Some text) st =>
        let buf := (if is_empty (buffer l) then buffer l else buffer l ++ [" "%char]) ++ text in
        mk_loop buf 0 (state_eqb st RecordingFinished)
    | LResult None st => mk_loop (buffer l) 0 (state_eqb st RecordingFinished)
    | LChanged st => mk_loop (buffer l) (consecutive_timeouts l) (state_eqb st Stopping)
    end.

Definition run_loop (l : Loop) (es : list LoopEvent) : Loop := fold_left loop_event es l.

Definition loop_init : Loop := mk_loop [] 0 false.

(** The transcriptions joined with single spaces. *)
Fixpoint join_space (ts : list rstring) : rstring :=
  match ts with
  | [] => []
  | [t] => t
  | t :: ts' => t ++ [" "%char] ++ join_space ts'
  end.

(* ------------------------------------------------------------------ *)
(** ** Concrete instances for the examples below *)

(** A worker whose [handle_stt] always transcribes ["hi"]. *)
Definition hi_handle (vs : unit) (a : AudioInput)
    : unit * (TranscriptionResult * option RecordingState) :=
  (vs, (mk_result [] a (Some (lit "hi")) 0 None, None)).

Definition mic_input : AudioInput := mk_input [0%Q; 0%Q] 16000 1 (lit "Mic (input)").

(** The worker right after the recorders published [Recording]. *)
Definition worker_recording : Sys unit :=
  mk_sys Recording 1 [] true [] true WLoopTop tt [].

Definition recorder_recording : Recorder := mk_recorder Recording [] true RLoopTest [] true.

(** Concrete collaborators: resampler, VAD, encoder and engines. *)
Definition id_sinc (ratio max_ratio : Q) (chunk_size nbr_channels : nat) (waves : list (list Q))
    : result (list (list Q)) Error := Ok waves.
Definition silent_vad (vs : unit) (frame : list Q) : unit * result bool Error := (vs, Ok false).
Definition voiced_vad (vs : unit) (frame : list Q) : unit * result bool Error := (vs, Ok true).
Definition encode_ok (d : list Q) (r : N) (c : nat) (p : rstring) : result unit Error := Ok tt.
Definition encode_fails (d : list Q) (r : N) (c : nat) (p : rstring) : result unit Error :=
  Err (anyhow (lit "ffmpeg exited with an error")).
Definition failing_engine : Engine := fun _ _ _ _ => Err (anyhow (lit "connection refused")).
Definition fallback_ok_engine : Engine := fun _ _ _ _ => Ok (lit "fallback ok").
Definition hello_engine : Engine := fun _ _ _ _ => Ok (lit "hello world").

Definition rest_engine : RestPipeEngine :=
  mk_restpipe (lit "http://localhost:5000/inference") [] (Some (lit "file")) (Some 16000%N).

Definition failing_vad (vs : unit) (frame : list Q) : unit * result bool Error :=
  (vs, Err (anyhow (lit "vad model not loaded"))).

(** Whisper models as a flag "is Tiny", and loaders that succeed or fail. *)
Definition model_loads (m : AudioTranscriptionEngine) : result unit Error := Ok tt.
Definition engine_fails_to_load (w : unit) : result unit Error :=
  Err (anyhow (lit "model weights missing")).

(* ================================================================== *)
(** * Theorems *)

(* ------------------------------------------------------------------ *)
(** ** String lemmas *)

Lemma strip_prefix_app (p l r : rstring) :
  List.length p <= List.length l ->
  strip_prefix p (l ++ r) =
  match strip_prefix p l with Some l' => Some (l' ++ r) | None => None end.
Proof.
  revert l. induction p as [|c p IH]; intros l Hlen; [reflexivity|].
  destruct l as [|d l]; simpl in Hlen; [lia|].
  simpl. destruct (Ascii.eqb c d); [apply IH; lia|reflexivity].
Qed.

Lemma strip_prefix_self (p r : rstring) : strip_prefix p (p ++ r) = Some r.
Proof.
  induction p as [|c p IH]; [reflexivity|].
  simpl. rewrite Ascii.eqb_refl. exact IH.
Qed.

Lemma ends_with_app (a b p : rstring) :
  List.length p <= List.length b -> ends_with (a ++ b) p = ends_with b p.
Proof.
  intros H. unfold ends_with, starts_with.
  rewrite rev_app_distr, strip_prefix_app by (rewrite !length_rev; exact H).
  destruct (strip_prefix (rev p) (rev b)); reflexivity.
Qed.

Lemma trim_start_app (a b : rstring) :
  trim_start a <> [] -> trim_start (a ++ b) = trim_start a ++ b.
Proof.
  induction a as [|c a IH]; simpl; intros H; [congruence|].
  destruct (is_whitespace c); [apply IH; exact H|reflexivity].
Qed.

Lemma trim_start_app_ne (a b : rstring) :
  trim_start b <> [] -> trim_start (a ++ b) <> [].
Proof.
  induction a as [|c a IH]; simpl; intros H; [exact H|].
  destruct (is_whitespace c); [apply IH; exact H|discriminate].
Qed.

Lemma trim_end_app (a b : rstring) :
  trim_start (rev b) <> [] -> trim_end (a ++ b) = a ++ trim_end b.
Proof.
  intros H. unfold trim_end.
  rewrite rev_app_distr, trim_start_app by exact H.
  rewrite rev_app_distr, rev_involutive. reflexivity.
Qed.

Lemma trim_end_snoc_ws (a : rstring) (c : ascii) :
  is_whitespace c = true -> trim_end (a ++ [c]) = trim_end a.
Proof.
  intros H. unfold trim_end. rewrite rev_app_distr. simpl. rewrite H. reflexivity.
Qed.

Lemma map_lower_app (a b : rstring) :
  to_lowercase (a ++ b) = to_lowercase a ++ to_lowercase b.
Proof. apply map_app. Qed.

(** One removal of the suffix [pat] from [x ++ " " ++ pat]: the blank that
    is left stops the repetition, as [pat] does not end in a blank. *)
Lemma trim_end_matches_once (x pat rp : rstring) (p0 : ascii) :
  rev pat = p0 :: rp -> Ascii.eqb p0 " "%char = false ->
  trim_end_matches (x ++ " "%char :: pat) pat = x ++ [" "%char].
Proof.
  intros Hrp Hblank. unfold trim_end_matches.
  assert (Hfuel : exists n, S (List.length (x ++ " "%char :: pat)) = S (S n)).
  { exists (List.length x + List.length pat). rewrite length_app. simpl. lia. }
  destruct Hfuel as [n Hn]. rewrite Hn.
  rewrite rev_app_distr. simpl rev at 1. rewrite <- app_assoc, Hrp.
  cbn [trim_start_matches_fuel]. rewrite <- Hrp, strip_prefix_self, Hrp.
  destruct n as [|n]; simpl; rewrite Hblank; simpl; rewrite rev_involutive; reflexivity.
Qed.

(* ------------------------------------------------------------------ *)
(** ** C3: [AudioDevice::from_name] against [Display] *)

Lemma trim_with_suffix (x t : rstring) :
  trim_start (rev t) <> [] -> trim_start t <> [] -> trim_end t = t ->
  is_empty (trim (x ++ t)) = false.
Proof.
  intros H1 H2 H3. unfold trim. rewrite trim_end_app by exact H1. rewrite H3.
  pose proof (trim_start_app_ne x t H2) as H.
  destruct (trim_start (x ++ t)); [contradiction|reflexivity].
Qed.

Lemma trim_blank_snoc (x : rstring) : trim (x ++ [" "%char]) = trim x.
Proof. unfold trim. rewrite trim_end_snoc_ws by reflexivity. reflexivity. Qed.

Ltac device_suffix_facts :=
  first [ discriminate | reflexivity | apply Nat.leb_le; reflexivity ].

(** C3 (amended): parsing the display form of a device gives the device back
    whenever its name carries no leading or trailing whitespace, which
    [from_name] trims. *)
Theorem from_name_display_roundtrip (d : AudioDevice) :
  trim (name d) = name d -> from_name (device_to_string d) = Ok d.
Proof.
  destruct d as [x k]. simpl. intros Hx. unfold from_name.
  destruct k.
  - change (device_to_string (mk_device x Input)) with (x ++ " "%char :: lit "(input)").
    rewrite trim_with_suffix by device_suffix_facts.
    rewrite map_lower_app, ends_with_app by device_suffix_facts.
    change (ends_with (to_lowercase (" "%char :: lit "(input)")) (lit "(input)")) with true.
    cbv iota beta.
    erewrite trim_end_matches_once by reflexivity.
    rewrite trim_blank_snoc, Hx. reflexivity.
  - change (device_to_string (mk_device x Output)) with (x ++ " "%char :: lit "(output)").
    rewrite trim_with_suffix by device_suffix_facts.
    rewrite map_lower_app, ends_with_app by device_suffix_facts.
    change (ends_with (to_lowercase (" "%char :: lit "(output)")) (lit "(input)")) with false.
    cbv iota beta.
    rewrite ends_with_app by device_suffix_facts.
    change (ends_with (to_lowercase (" "%char :: lit "(output)")) (lit "(output)")) with true.
    cbv iota beta.
    erewrite trim_end_matches_once by reflexivity.
    rewrite trim_blank_snoc, Hx. reflexivity.
Qed.

Lemma from_name_display_roundtrip_witness :
  trim (lit "Mic 1") = lit "Mic 1" /\
  from_name (device_to_string (mk_device (lit "Mic 1") Input)) = Ok (mk_device (lit "Mic 1") Input).
Proof.
  split; [reflexivity|].
  apply (from_name_display_roundtrip (mk_device (lit "Mic 1") Input)). reflexivity.
Defined.

(** C3 (counterexample): a name with a trailing blank does not survive the
    round trip: ["Mic  (input)"] parses to the device named ["Mic"]. *)
Lemma from_name_display_trailing_blank :
  from_name (device_to_string (mk_device (lit "Mic ") Input)) =
    Ok (mk_device (lit "Mic") Input) /\
  from_name (device_to_string (mk_device (lit "Mic ") Input)) <>
    Ok (mk_device (lit "Mic ") Input).
Proof. split; [vm_compute; reflexivity | vm_compute; discriminate]. Qed.

(* ------------------------------------------------------------------ *)
(** ** C10: Deepgram response without a transcript *)

(** C10: a parsed response with no [err_code] field and no string at
    [results.channels[0].alternatives[0].transcript] is a successful, empty
    transcription. *)
Theorem deepgram_missing_transcript_is_empty
    (debug_error : Error -> rstring) (debug_value : Value -> rstring) (v : Value) :
  value_get v (lit "err_code") = None ->
  as_str (transcript_path v) = None ->
  transcribe_with_deepgram_response debug_error debug_value (Ok (Ok v)) = Ok [].
Proof.
  intros Herr Htr. unfold transcribe_with_deepgram_response.
  rewrite Herr, Htr. reflexivity.
Qed.

Lemma deepgram_missing_transcript_is_empty_witness :
  let v := VObject [(lit "results", VObject [(lit "channels", VArray [])])] in
  value_get v (lit "err_code") = None /\ as_str (transcript_path v) = None /\
  transcribe_with_deepgram_response (fun _ => []) (fun _ => []) (Ok (Ok v)) = Ok [].
Proof.
  intros v. split; [reflexivity|]. split; [reflexivity|].
  apply deepgram_missing_transcript_is_empty; reflexivity.
Defined.

(* ------------------------------------------------------------------ *)
(** ** The STT worker: exit and dequeue behaviour *)

Section WorkerFacts.
Variable VS : Type.
Variable handle : VS -> AudioInput -> VS * (TranscriptionResult * option RecordingState).

Lemma exited_event_stable (s : Sys VS) (e : Event) :
  wpc s = WExited ->
  wpc (sys_event VS handle s e) = WExited /\ dequeued (sys_event VS handle s e) = dequeued s.
Proof.
  intros H. destruct e; simpl; try (split; [exact H|reflexivity]).
  - unfold worker_step. rewrite H. auto.
  - rewrite H. auto.
Qed.

Lemma exited_run_stable (s : Sys VS) (es : list Event) :
  wpc s = WExited ->
  wpc (run_sys VS handle s es) = WExited /\ dequeued (run_sys VS handle s es) = dequeued s.
Proof.
  revert s. induction es as [|e es IH]; intros s H; [auto|].
  simpl. destruct (exited_event_stable s e H) as [H1 H2].
  destruct (IH _ H1) as [H3 H4]. split; [exact H3|]. rewrite H4. exact H2.
Qed.
End WorkerFacts.

(** C1 (amended): a worker at the top of its loop that finds [Stopping] on the
    (already written) bus exits, and whatever happens afterwards it dequeues
    no further input. *)
Theorem worker_stops_at_loop_top (VS : Type)
    (handle : VS -> AudioInput -> VS * (TranscriptionResult * option RecordingState))
    (s : Sys VS) (es : list Event) :
  wpc s = WLoopTop -> has_changed s = true -> bus_val s = Stopping ->
  wpc (worker_step VS handle s) = WExited /\
  dequeued (run_sys VS handle (worker_step VS handle s) es) = dequeued s.
Proof.
  intros Hpc Hch Hst.
  assert (Hex : wpc (worker_step VS handle s) = WExited).
  { unfold worker_step. rewrite Hpc, Hch, Hst. reflexivity. }
  split; [exact Hex|].
  destruct (exited_run_stable VS handle _ es Hex) as [_ H]. rewrite H.
  unfold worker_step. rewrite Hpc, Hch, Hst. reflexivity.
Qed.

Lemma worker_stops_at_loop_top_witness :
  let s := mk_sys Stopping 2 [mic_input] true [] true WLoopTop tt [] in
  (wpc s = WLoopTop /\ has_changed s = true /\ bus_val s = Stopping) /\
  (wpc (worker_step unit hi_handle s) = WExited /\
   dequeued (run_sys unit hi_handle (worker_step unit hi_handle s) [EWorker; EWorker]) = dequeued s).
Proof.
  intros s. split; [split; [reflexivity|split; reflexivity]|].
  apply worker_stops_at_loop_top; reflexivity.
Defined.

(** C1 (counterexample): the worker is waiting on the ingress channel when
    [Stopping] is published; the next input that arrives is still dequeued
    (and transcribed). *)
Lemma worker_dequeues_after_stopping :
  let s1 := run_sys unit hi_handle worker_recording [EWorker; EPublish Stopping] in
  bus_val s1 = Stopping /\ dequeued s1 = [] /\
  dequeued (run_sys unit hi_handle s1 [ESend mic_input; EWorker]) = [mic_input].
Proof. vm_compute. repeat split; reflexivity. Qed.

(** C9 (amended): the worker leaves its loop only (a) at the top of an
    iteration, the bus having been written and holding [Stopping], (b) in the
    [select!] when the ingress channel is closed and empty, or (c) when the
    egress send fails; and after its transcription loop the supervisor
    publishes [Stopping] before every recorder join. *)
Theorem worker_exit_reasons_and_shutdown_order (VS : Type)
    (handle : VS -> AudioInput -> VS * (TranscriptionResult * option RecordingState))
    (s : Sys VS) (outcomes : list (result unit Error)) (k i : nat) :
  wpc s <> WExited -> wpc (worker_step VS handle s) = WExited ->
  nth_error (main_shutdown outcomes) k = Some (JoinRecorder i) ->
  ((wpc s = WLoopTop /\ has_changed s = true /\ bus_val s = Stopping) \/
   (wpc s = WSelect /\ ingress s = [] /\ ingress_open s = false) \/
   (wpc s = WSelect /\ ingress s <> [] /\ egress_open s = false)) /\
  (nth_error (main_shutdown outcomes) 0 = Some (PublishState Stopping) /\ 0 < k).
Proof.
  intros Hne Hex Hjoin. split.
  - unfold worker_step in Hex. destruct (wpc s) eqn:Hpc; [| |contradiction].
    + left. destruct (has_changed s) eqn:Hch; [|discriminate].
      destruct (bus_val s) eqn:Hb; try discriminate. auto.
    + right. destruct (ingress s) as [|a rest] eqn:Hin.
      * left. destruct (ingress_open s) eqn:Ho; [rewrite Hpc in Hex; discriminate|auto].
      * right. destruct (handle (wvad VS s) a) as [vs' [res pub]].
        destruct pub as [st|]; destruct (egress_open s) eqn:He; try discriminate;
          repeat split; congruence.
  - split; [reflexivity|].
    destruct k as [|k]; [discriminate|lia].
Qed.

Lemma worker_exit_reasons_and_shutdown_order_witness :
  let s := mk_sys Recording 1 [] false [] true WSelect tt [] in
  (wpc s <> WExited /\ wpc (worker_step unit hi_handle s) = WExited /\
   nth_error (main_shutdown [Ok tt]) 2 = Some (JoinRecorder 0)) /\
  (((wpc s = WLoopTop /\ has_changed s = true /\ bus_val s = Stopping) \/
    (wpc s = WSelect /\ ingress s = [] /\ ingress_open s = false) \/
    (wpc s = WSelect /\ ingress s <> [] /\ egress_open s = false)) /\
   (nth_error (main_shutdown [Ok tt]) 0 = Some (PublishState Stopping) /\ 0 < 2)).
Proof.
  intros s. split; [split; [discriminate|split; reflexivity]|].
  apply (worker_exit_reasons_and_shutdown_order unit hi_handle s [Ok tt] 2 0);
    [discriminate|reflexivity|reflexivity].
Defined.

(** C9 (counterexample): with the bus at [Recording] the worker exits as soon
    as the last input sender is dropped, and the supervisor publishes
    [Stopping] before it joins recorder 0. *)
Lemma worker_exits_without_stopping :
  let s := run_sys unit hi_handle worker_recording [ECloseIngress; EWorker; EWorker] in
  (wpc s = WExited /\ bus_val s = Recording) /\
  main_shutdown [Ok tt] = [PublishState Stopping; DrainEgress; JoinRecorder 0; JoinKeyboard].
Proof. vm_compute. repeat split; reflexivity. Qed.

(* ------------------------------------------------------------------ *)
(** ** C2: the recorder loop under [RecordingPaused] *)

Lemma rec_done_stable (dev : rstring) (rate : N) (ch : nat) (r : Recorder) (es : list RecEvent) :
  rec_pc r = RDone -> rec_capture_running r = false ->
  rec_pc (run_recorder dev rate ch r es) = RDone /\
  rec_forwarded (run_recorder dev rate ch r es) = rec_forwarded r /\
  rec_capture_running (run_recorder dev rate ch r es) = false.
Proof.
  revert r. induction es as [|e es IH]; intros r Hpc Hrun; [auto|].
  simpl. destruct e as [| s | c]; simpl.
  - assert (E : rec_step dev rate ch r = r) by (unfold rec_step; rewrite Hpc; reflexivity).
    rewrite E. apply IH; assumption.
  - exact (IH (mk_recorder s (rec_chunks r) (rec_chunks_open r) (rec_pc r)
                 (rec_forwarded r) (rec_capture_running r)) Hpc Hrun).
  - rewrite Hrun. cbv iota. apply IH; assumption.
Qed.

(** C2 (code_bug): a recorder that tests its loop condition while the state
    is [RecordingPaused] leaves the loop, stops its capture stream, and never
    forwards another chunk, whatever is published afterwards. *)
Theorem recorder_exits_on_pause (dev : rstring) (rate : N) (ch : nat) (r : Recorder)
    (es : list RecEvent) :
  rec_pc r = RLoopTest -> rec_state r = RecordingPaused ->
  let r' := run_recorder dev rate ch (rec_step dev rate ch r) es in
  rec_pc r' = RDone /\ rec_forwarded r' = rec_forwarded r /\ rec_capture_running r' = false.
Proof.
  intros Hpc Hst. simpl.
  assert (E : rec_step dev rate ch r =
              mk_recorder (rec_state r) (rec_chunks r) (rec_chunks_open r) RDone
                (rec_forwarded r) false)
    by (unfold rec_step; rewrite Hpc, Hst; reflexivity).
  rewrite E.
  exact (rec_done_stable dev rate ch (mk_recorder (rec_state r) (rec_chunks r)
           (rec_chunks_open r) RDone (rec_forwarded r) false) es eq_refl eq_refl).
Qed.

(** The pause/resume scenario: pause, resume, then a chunk arrives. *)
Lemma recorder_exits_on_pause_witness :
  let r := mk_recorder RecordingPaused [] true RLoopTest [] true in
  (rec_pc r = RLoopTest /\ rec_state r = RecordingPaused) /\
  (let r' := run_recorder (lit "Mic (input)") 16000 1 (rec_step (lit "Mic (input)") 16000 1 r)
               [RecPublish Recording; RecChunk [0%Q]; RecStep; RecStep] in
   rec_pc r' = RDone /\ rec_forwarded r' = rec_forwarded r /\ rec_capture_running r' = false).
Proof.
  intros r. split; [split; reflexivity|].
  apply recorder_exits_on_pause; reflexivity.
Defined.

(* ------------------------------------------------------------------ *)
(** ** C4 and C5: [perform_stt] and [handle_stt] outcomes *)

Section SttOutcomes.
Variable sinc : Q -> Q -> nat -> nat -> list (list Q) -> result (list (list Q)) Error.
Variable VS : Type.
Variable vad : VS -> list Q -> VS * result bool Error.
Variable enc : list Q -> N -> nat -> rstring -> result unit Error.
Variable now : rstring.
Variable dbg : Error -> rstring.

(** C4 (amended): when the speech buffer is empty after the VAD pass,
    [perform_stt] fails with the [NoSpeech] kind, and [handle_stt] publishes
    [RecordingFinished] and yields a result without transcription whose
    error is ["No speech detected in the audio"]. *)
Theorem no_speech_outcome (vs : VS) (a : AudioInput) (primary : Engine)
    (fallback : option Engine) (out : option rstring) (ts : N)
    (audio : list Q) (ch : nat) (vs' : VS) :
  stt_audio sinc a = Ok (audio, ch) ->
  vad_filter VS vad vs (chunks 160 audio) [] = (vs', []) ->
  snd (perform_stt sinc VS vad enc now dbg vs a primary fallback out) = Err no_speech_error /\
  err_no_speech no_speech_error = true /\
  handle_stt sinc VS vad enc now dbg vs a primary fallback out ts =
    (vs', (mk_result [] a None ts (Some (lit "No speech detected in the audio")),
           Some RecordingFinished)).
Proof.
  intros Ha Hv. unfold handle_stt, perform_stt. rewrite Ha, Hv.
  split; [reflexivity|]. split; reflexivity.
Qed.

(** C5 (amended): when the primary engine fails on detected speech, a
    configured fallback is called on the same speech samples. Its
    transcription is returned with no error, unless an output directory is
    configured and persisting the original audio there fails: then the
    result has no transcription and the encoder's error. A failing fallback
    gives its own error. Without a fallback the result has no transcription
    and the error
    ["Primary engine failed and no fallback configured: <primary error>"]. *)
Theorem fallback_outcome (vs : VS) (a : AudioInput) (primary : Engine)
    (fallback : option Engine) (out : option rstring) (ts : N)
    (audio : list Q) (ch : nat) (vs' : VS) (speech : list Q) (e : Error) :
  stt_audio sinc a = Ok (audio, ch) ->
  vad_filter VS vad vs (chunks 160 audio) [] = (vs', speech) ->
  speech <> [] ->
  primary speech SAMPLE_RATE ch (device a) = Err e ->
  (forall (f : Engine) (t : rstring),
     fallback = Some f -> f speech SAMPLE_RATE ch (device a) = Ok t ->
     (forall p, out = Some p ->
        enc (data a) (sample_rate a) (channels a) (mp4_file_path now p a) = Ok tt) ->
     transcription (fst (snd (handle_stt sinc VS vad enc now dbg vs a primary fallback out ts)))
       = Some t /\
     error (fst (snd (handle_stt sinc VS vad enc now dbg vs a primary fallback out ts))) = None) /\
  (forall (f : Engine) (t : rstring) (p : rstring) (e' : Error),
     fallback = Some f -> f speech SAMPLE_RATE ch (device a) = Ok t ->
     out = Some p ->
     enc (data a) (sample_rate a) (channels a) (mp4_file_path now p a) = Err e' ->
     transcription (fst (snd (handle_stt sinc VS vad enc now dbg vs a primary fallback out ts)))
       = None /\
     error (fst (snd (handle_stt sinc VS vad enc now dbg vs a primary fallback out ts)))
       = Some (err_msg e')) /\
  (forall (f : Engine) (e' : Error),
     fallback = Some f -> f speech SAMPLE_RATE ch (device a) = Err e' ->
     transcription (fst (snd (handle_stt sinc VS vad enc now dbg vs a primary fallback out ts)))
       = None /\
     error (fst (snd (handle_stt sinc VS vad enc now dbg vs a primary fallback out ts)))
       = Some (err_msg e')) /\
  (fallback = None ->
   snd (handle_stt sinc VS vad enc now dbg vs a primary fallback out ts) =
     (mk_result [] a None ts
        (Some (lit "Primary engine failed and no fallback configured: " ++ dbg e)), None)).
Proof.
  intros Ha Hv Hs Hp.
  unfold handle_stt, perform_stt. rewrite Ha, Hv.
  destruct speech as [|x sp]; [congruence|]. cbn [is_nil]. rewrite Hp.
  split; [|split; [|split]].
  - intros f t Hf Ht Henc. subst fallback. rewrite Ht.
    destruct out as [p|].
    + rewrite (Henc p eq_refl). split; reflexivity.
    + split; reflexivity.
  - intros f t p e' Hf Ht Ho He. subst fallback out. rewrite Ht, He. split; reflexivity.
  - intros f e' Hf He. subst fallback. rewrite He. split; reflexivity.
  - intros Hf. subst fallback. reflexivity.
Qed.
End SttOutcomes.

Lemma no_speech_outcome_witness :
  (stt_audio id_sinc mic_input = Ok ([0%Q; 0%Q], 1) /\
   vad_filter unit silent_vad tt (chunks 160 [0%Q; 0%Q]) [] = (tt, [])) /\
  (snd (perform_stt id_sinc unit silent_vad encode_ok [] err_msg tt mic_input hello_engine None None)
     = Err no_speech_error /\
   err_no_speech no_speech_error = true /\
   handle_stt id_sinc unit silent_vad encode_ok [] err_msg tt mic_input hello_engine None None 0 =
     (tt, (mk_result [] mic_input None 0 (Some (lit "No speech detected in the audio")),
           Some RecordingFinished))).
Proof.
  split; [split; reflexivity|].
  apply (no_speech_outcome id_sinc unit silent_vad encode_ok [] err_msg tt mic_input
           hello_engine None None 0 [0%Q; 0%Q] 1 tt); reflexivity.
Defined.

(** C4 (counterexample): the error string of the no-speech result is
    ["No speech detected in the audio"], which does not contain ["no speech"]. *)
Lemma no_speech_message_is_capitalised :
  let r := snd (handle_stt id_sinc unit silent_vad encode_ok [] err_msg tt mic_input
                  hello_engine None None 0) in
  transcription (fst r) = None /\ snd r = Some RecordingFinished /\
  error (fst r) = Some (lit "No speech detected in the audio") /\
  contains (lit "No speech detected in the audio") (lit "no speech") = false.
Proof. vm_compute. repeat split; reflexivity. Qed.

Lemma fallback_outcome_witness :
  (stt_audio id_sinc mic_input = Ok ([0%Q; 0%Q], 1) /\
   vad_filter unit voiced_vad tt (chunks 160 [0%Q; 0%Q]) [] = (tt, [0%Q; 0%Q]) /\
   [0%Q; 0%Q] <> [] /\
   failing_engine [0%Q; 0%Q] SAMPLE_RATE 1 (device mic_input) =
     Err (anyhow (lit "connection refused"))) /\
  (let r := fst (snd (handle_stt id_sinc unit voiced_vad encode_ok [] err_msg tt mic_input
                       failing_engine (Some fallback_ok_engine) (Some (lit "/tmp/rec")) 0)) in
   transcription r = Some (lit "fallback ok") /\ error r = None) /\
  (let r := fst (snd (handle_stt id_sinc unit voiced_vad encode_fails [] err_msg tt mic_input
                       failing_engine (Some fallback_ok_engine) (Some (lit "/tmp/rec")) 0)) in
   transcription r = None /\ error r = Some (lit "ffmpeg exited with an error")) /\
  (let r := fst (snd (handle_stt id_sinc unit voiced_vad encode_ok [] err_msg tt mic_input
                       failing_engine (Some failing_engine) None 0)) in
   transcription r = None /\ error r = Some (lit "connection refused")) /\
  snd (handle_stt id_sinc unit voiced_vad encode_ok [] err_msg tt mic_input
         failing_engine None None 0) =
    (mk_result [] mic_input None 0
       (Some (lit "Primary engine failed and no fallback configured: " ++
              err_msg (anyhow (lit "connection refused")))), None).
Proof.
  assert (Ha : stt_audio id_sinc mic_input = Ok ([0%Q; 0%Q], 1)) by reflexivity.
  assert (Hv : vad_filter unit voiced_vad tt (chunks 160 [0%Q; 0%Q]) [] = (tt, [0%Q; 0%Q]))
    by reflexivity.
  assert (Hs : [0%Q; 0%Q] <> []) by discriminate.
  assert (Hp : failing_engine [0%Q; 0%Q] SAMPLE_RATE 1 (device mic_input) =
               Err (anyhow (lit "connection refused"))) by reflexivity.
  split; [split; [exact Ha|split; [exact Hv|split; [exact Hs|exact Hp]]]|].
  split; [|split; [|split]].
  - exact (proj1 (fallback_outcome id_sinc unit voiced_vad encode_ok [] err_msg tt mic_input
             failing_engine (Some fallback_ok_engine) (Some (lit "/tmp/rec")) 0 [0%Q; 0%Q] 1 tt
             [0%Q; 0%Q] (anyhow (lit "connection refused")) Ha Hv Hs Hp)
             fallback_ok_engine (lit "fallback ok") eq_refl eq_refl
             (fun p _ => eq_refl)).
  - exact (proj1 (proj2 (fallback_outcome id_sinc unit voiced_vad encode_fails [] err_msg tt
             mic_input failing_engine (Some fallback_ok_engine) (Some (lit "/tmp/rec")) 0
             [0%Q; 0%Q] 1 tt [0%Q; 0%Q] (anyhow (lit "connection refused")) Ha Hv Hs Hp))
             fallback_ok_engine (lit "fallback ok") (lit "/tmp/rec")
             (anyhow (lit "ffmpeg exited with an error")) eq_refl eq_refl eq_refl eq_refl).
  - exact (proj1 (proj2 (proj2 (fallback_outcome id_sinc unit voiced_vad encode_ok [] err_msg tt
             mic_input failing_engine (Some failing_engine) None 0
             [0%Q; 0%Q] 1 tt [0%Q; 0%Q] (anyhow (lit "connection refused")) Ha Hv Hs Hp)))
             failing_engine (anyhow (lit "connection refused")) eq_refl eq_refl).
  - exact (proj2 (proj2 (proj2 (fallback_outcome id_sinc unit voiced_vad encode_ok [] err_msg tt
             mic_input failing_engine None None 0
             [0%Q; 0%Q] 1 tt [0%Q; 0%Q] (anyhow (lit "connection refused")) Ha Hv Hs Hp)))
             eq_refl).
Defined.

(** C5 (counterexample): the primary engine fails, the fallback transcribes
    ["fallback ok"], but an output directory is configured and encoding the
    original audio fails: the result carries no transcription and the
    encoder's error. *)
Lemma fallback_result_lost_on_encode_failure :
  let r := fst (snd (handle_stt id_sinc unit voiced_vad encode_fails [] err_msg tt mic_input
                       failing_engine (Some fallback_ok_engine) (Some (lit "/tmp/rec")) 0)) in
  fallback_ok_engine [0%Q; 0%Q] SAMPLE_RATE 1 (device mic_input) = Ok (lit "fallback ok") /\
  transcription r = None /\ error r = Some (lit "ffmpeg exited with an error").
Proof. vm_compute. repeat split; reflexivity. Qed.

(* ------------------------------------------------------------------ *)
(** ** C6: [resample] is mono-producing and down-mixes by the frame mean *)

Lemma chunks_fuel_frames {A} (n : nat) (l : list A) (k f : nat) :
  0 < n -> List.length l = k * n -> k <= f ->
  chunks_fuel f n l = map (fun i => firstn n (skipn (i * n) l)) (seq 0 k).
Proof.
  intros Hn. revert l f. induction k as [|k IH]; intros l f Hl Hf.
  - destruct l; [|simpl in Hl; lia]. destruct f; reflexivity.
  - destruct f as [|f]; [lia|]. destruct l as [|x l']; [simpl in Hl; lia|].
    cbn [chunks_fuel]. rewrite IH.
    + cbn [seq map]. rewrite Nat.mul_0_l, skipn_O. f_equal.
      rewrite <- seq_shift, map_map. apply map_ext. intros i.
      rewrite skipn_skipn. f_equal. f_equal. simpl. lia.
    + rewrite length_skipn. rewrite Hl. lia.
    + lia.
Qed.

Lemma nth_map_lt {A B} (f : A -> B) (l : list A) (i : nat) (d : B) (a : A) :
  i < List.length l -> nth i (map f l) d = f (nth i l a).
Proof.
  intros H. rewrite (nth_indep _ d (f a)) by (rewrite length_map; exact H). apply map_nth.
Qed.

Lemma frame_length {A} (n k i : nat) (l : list A) :
  List.length l = k * n -> i < k -> List.length (firstn n (skipn (i * n) l)) = n.
Proof.
  intros Hl Hi. rewrite length_firstn, length_skipn.
  apply Nat.min_l. rewrite Hl.
  assert (i * n + n <= k * n) by (rewrite <- Nat.mul_succ_l; apply Nat.mul_le_mono_r; lia).
  lia.
Qed.

(** C6: [resample] hands the sinc resampler exactly one channel and returns
    its first (only) output channel; with [in_channels > 1] that channel is
    the down-mix, whose [i]-th sample is the arithmetic mean of the [i]-th
    frame of interleaved samples. *)
Theorem resample_mono_mean
    (sinc : Q -> Q -> nat -> nat -> list (list Q) -> result (list (list Q)) Error)
    (input : list Q) (ch : nat) (from to : N) (out : list Q) :
  1 <= ch ->
  resample sinc input ch from to = Ok out ->
  let m := if 1 <? ch then downmix ch input else input in
  (exists rest, sinc (Q_of_N to / Q_of_N from)%Q 2%Q (List.length m) 1 [m] = Ok (out :: rest)) /\
  (1 < ch -> List.length input mod ch = 0 ->
   List.length m = List.length input / ch /\
   forall i, i < List.length m -> nth i m 0%Q = mean (firstn ch (skipn (i * ch) input))).
Proof.
  intros Hch Hres m. split.
  - unfold resample in Hres. fold m in Hres.
    destruct (sinc _ _ _ _ _) as [waves|e]; [|discriminate].
    destruct waves as [|w rest]; [discriminate|].
    injection Hres as <-. exists rest. reflexivity.
  - intros Hgt Hmod.
    set (k := List.length input / ch).
    assert (Hlen : List.length input = k * ch).
    { pose proof (Nat.div_mod_eq (List.length input) ch) as E. rewrite Hmod in E.
      unfold k. lia. }
    assert (Hm : m = map (fun i => (Qsum (firstn ch (skipn (i * ch) input)) / Q_of_nat ch)%Q)
                         (seq 0 k)).
    { unfold m. replace (1 <? ch) with true by (symmetry; apply Nat.ltb_lt; exact Hgt).
      unfold downmix, chunks. rewrite (chunks_fuel_frames ch input k); [| lia | exact Hlen |].
      - rewrite map_map. reflexivity.
      - rewrite Hlen. destruct ch; [lia|]. rewrite Nat.mul_succ_r. lia. }
    rewrite Hm, length_map, length_seq. split; [reflexivity|].
    intros i Hi.
    rewrite (nth_map_lt _ (seq 0 k) i 0%Q 0) by (rewrite length_seq; exact Hi).
    rewrite seq_nth by exact Hi. simpl (0 + i).
    unfold mean. rewrite (frame_length ch k i input Hlen Hi). reflexivity.
Qed.

Lemma resample_mono_mean_witness :
  (1 <= 2 /\
   resample id_sinc [1%Q; 3%Q; 2%Q; 4%Q] 2 44100 16000 = Ok (downmix 2 [1%Q; 3%Q; 2%Q; 4%Q])) /\
  (let m := if 1 <? 2 then downmix 2 [1%Q; 3%Q; 2%Q; 4%Q] else [1%Q; 3%Q; 2%Q; 4%Q] in
   (exists rest, id_sinc (Q_of_N 16000 / Q_of_N 44100)%Q 2%Q (List.length m) 1 [m] =
                 Ok (downmix 2 [1%Q; 3%Q; 2%Q; 4%Q] :: rest)) /\
   (1 < 2 -> List.length [1%Q; 3%Q; 2%Q; 4%Q] mod 2 = 0 ->
    List.length m = List.length [1%Q; 3%Q; 2%Q; 4%Q] / 2 /\
    forall i, i < List.length m ->
      nth i m 0%Q = mean (firstn 2 (skipn (i * 2) [1%Q; 3%Q; 2%Q; 4%Q])))).
Proof.
  split; [split; [lia|reflexivity]|].
  apply (resample_mono_mean id_sinc [1%Q; 3%Q; 2%Q; 4%Q] 2 44100 16000); [lia|reflexivity].
Defined.

(* ------------------------------------------------------------------ *)
(** ** C7: the WAV header of the REST engine *)

Lemma wav_finalize_mono (n bits : nat) : wav_finalize n bits 1 = Returned (Ok tt).
Proof. unfold wav_finalize. cbn [Nat.eqb N.of_nat Pos.of_succ_nat]. rewrite N.mod_1_r. reflexivity. Qed.

(** C7 (code_bug): when the REST engine resamples to its configured rate
    [to], the packaged Int16 WAV is mono but its header keeps the incoming
    [sample_rate], not [to]. *)
Theorem restpipe_header_keeps_input_rate
    (sinc : Q -> Q -> nat -> nat -> list (list Q) -> result (list (list Q)) Error)
    (self : RestPipeEngine) (audio : list Q) (rate : N) (ch : nat) (to : N) (w : Wav) :
  resample_to_rate self = Some to -> to <> rate ->
  restpipe_wav sinc self audio rate ch = Returned (Ok w) ->
  spec_sample_rate (wav_spec w) = rate /\ spec_channels (wav_spec w) = 1 /\
  spec_sample_format (wav_spec w) = HInt /\ bits_per_sample (wav_spec w) = 16.
Proof.
  intros Hto Hne Hw. unfold restpipe_wav in Hw. rewrite Hto in Hw.
  replace (N.eqb to rate) with false in Hw by (symmetry; apply N.eqb_neq; exact Hne).
  cbn [negb] in Hw.
  destruct (resample sinc audio ch rate to) as [d|e]; [|discriminate].
  unfold create_wav in Hw. cbn [get_wav_format] in Hw. rewrite wav_finalize_mono in Hw.
  injection Hw as <-. repeat split.
Qed.

Lemma restpipe_header_keeps_input_rate_witness :
  (resample_to_rate rest_engine = Some 16000%N /\ 16000%N <> 44100%N /\
   restpipe_wav id_sinc rest_engine [0%Q; 0%Q; 0%Q; 0%Q] 44100 2 =
     Returned (Ok (mk_wav (mk_spec 1 44100 16 HInt)
           (IntSamples (map to_i16 (downmix 2 [0%Q; 0%Q; 0%Q; 0%Q])))))) /\
  (spec_sample_rate (mk_spec 1 44100 16 HInt) = 44100%N /\ spec_channels (mk_spec 1 44100 16 HInt) = 1 /\
   spec_sample_format (mk_spec 1 44100 16 HInt) = HInt /\ bits_per_sample (mk_spec 1 44100 16 HInt) = 16).
Proof.
  split; [split; [reflexivity|split; [discriminate|reflexivity]]|].
  apply (restpipe_header_keeps_input_rate id_sinc rest_engine [0%Q; 0%Q; 0%Q; 0%Q] 44100 2 16000
           (mk_wav (mk_spec 1 44100 16 HInt)
              (IntSamples (map to_i16 (downmix 2 [0%Q; 0%Q; 0%Q; 0%Q])))));
    [reflexivity|discriminate|reflexivity].
Defined.

(* ------------------------------------------------------------------ *)
(** ** C8: chunk sizes of the capture stream *)

Lemma capture_stopped_stable (th : N) (c : Capture) (es : list CaptureEvent) :
  is_running c = false ->
  sent (run_capture th c es) = sent c /\ audio_data (run_capture th c es) = audio_data c /\
  is_running (run_capture th c es) = false.
Proof.
  revert c. induction es as [|e es IH]; intros c H; [auto|].
  unfold run_capture. cbn [fold_left]. fold (run_capture th (capture_event th c e) es).
  destruct e as [b|]; cbn [capture_event].
  - unfold input_callback. rewrite H. cbn [negb]. apply IH. exact H.
  - destruct (IH (mk_capture (audio_data c) (sent c) false) eq_refl) as [H1 [H2 H3]].
    rewrite H1, H2, H3. auto.
Qed.

Lemma capture_running_inv (th : N) (c : Capture) (es : list CaptureEvent) :
  is_running c = true ->
  Forall (fun chunk => (th <= N.of_nat (List.length chunk))%N) (sent c) ->
  (audio_data c = [] \/ (N.of_nat (List.length (audio_data c)) < th)%N) ->
  let c' := run_capture th c es in
  Forall (fun chunk => (th <= N.of_nat (List.length chunk))%N) (sent c') /\
  concat (sent c') ++ audio_data c' = concat (sent c) ++ audio_data c ++ accepted es /\
  (audio_data c' = [] \/ (N.of_nat (List.length (audio_data c')) < th)%N).
Proof.
  revert c. induction es as [|e es IH]; intros c Hrun Hall Hbuf; simpl.
  - rewrite app_nil_r. auto.
  - fold (run_capture th (capture_event th c e) es).
    destruct e as [b|]; cbn [capture_event].
    + unfold input_callback. rewrite Hrun. cbn [negb].
      destruct (N.leb th (N.of_nat (List.length (audio_data c ++ b)))) eqn:Hle.
      * apply N.leb_le in Hle.
        destruct (IH (mk_capture [] (sent c ++ [audio_data c ++ b]) true) eq_refl)
          as [H1 [H2 H3]]; simpl.
        -- apply Forall_app. split; [exact Hall|]. constructor; [exact Hle|constructor].
        -- left. reflexivity.
        -- split; [exact H1|]. split; [|exact H3].
           rewrite H2. simpl. rewrite concat_app. simpl.
           rewrite !app_nil_r, !app_assoc. reflexivity.
      * apply N.leb_gt in Hle.
        destruct (IH (mk_capture (audio_data c ++ b) (sent c) true) eq_refl)
          as [H1 [H2 H3]]; simpl.
        -- exact Hall.
        -- right. exact Hle.
        -- split; [exact H1|]. split; [|exact H3].
           rewrite H2. simpl. rewrite !app_assoc. reflexivity.
    + destruct (capture_stopped_stable th (mk_capture (audio_data c) (sent c) false) es eq_refl)
        as [H1 [H2 _]].
      rewrite H1, H2. simpl. rewrite app_nil_r. auto.
Qed.

(** C8 (amended): every chunk the capture stream emits holds at least
    [chunk_duration.as_secs() * sample_rate * channels] samples (the whole
    buffer accumulated once it reaches that size); the chunks followed by the
    remainder are exactly the accepted samples, in order; the remainder is
    empty or below the threshold, and is never emitted once [is_running] is
    cleared. *)
Theorem capture_chunks_at_least_threshold (dur : Duration) (rate : N) (ch : nat)
    (es : list CaptureEvent) :
  let th := chunk_threshold dur rate ch in
  let c := run_capture th capture_init es in
  Forall (fun chunk => (th <= N.of_nat (List.length chunk))%N) (sent c) /\
  concat (sent c) ++ audio_data c = accepted es /\
  (audio_data c = [] \/ (N.of_nat (List.length (audio_data c)) < th)%N) /\
  (forall es', sent (run_capture th capture_init (es ++ ClearRunning :: es')) = sent c).
Proof.
  intros th c.
  destruct (capture_running_inv th capture_init es eq_refl (Forall_nil _) (or_introl eq_refl))
    as [H1 [H2 H3]].
  split; [exact H1|]. split; [exact H2|]. split; [exact H3|].
  intros es'.
  change (run_capture th capture_init (es ++ ClearRunning :: es'))
    with (fold_left (capture_event th) (es ++ ClearRunning :: es') capture_init).
  rewrite fold_left_app. cbn [fold_left].
  destruct (capture_stopped_stable th
              (capture_event th (fold_left (capture_event th) es capture_init) ClearRunning)
              es' eq_refl) as [E _].
  unfold run_capture in E. rewrite E. reflexivity.
Qed.

(** C8 (counterexample): a 1 s chunk at 16 kHz mono is 16000 samples; with
    the hardware delivering 512-sample blocks the first chunk emitted holds
    16384 samples. *)
Lemma capture_chunk_overshoots :
  let th := chunk_threshold (mk_duration 1 0) 16000 1 in
  th = 16000%N /\
  map (@List.length Q) (sent (run_capture th capture_init
                               (repeat (Callback (repeat 0%Q 512)) 32))) = [16384].
Proof. vm_compute. split; reflexivity. Qed.

(** The pause/resume scenario for C2, from [Recording]: the chunk the
    recorder was already awaiting is forwarded, then it sees
    [RecordingPaused], leaves its loop and stops the capture; the chunk
    captured after [Recording] is published again never arrives. *)
Lemma recorder_pause_resume_trace :
  let r := run_recorder (lit "Mic (input)") 16000 1 recorder_recording
             [RecStep; RecPublish RecordingPaused; RecChunk [0%Q]; RecStep; RecStep;
              RecPublish Recording; RecChunk [1%Q]; RecStep; RecStep] in
  rec_pc r = RDone /\
  rec_forwarded r = [mk_input [0%Q] 16000 1 (lit "Mic (input)")] /\
  rec_chunks r = [] /\ rec_capture_running r = false.
Proof. vm_compute. repeat split; reflexivity. Qed.

(* ================================================================== *)
(** * Further properties of the code *)

(* ------------------------------------------------------------------ *)
(** ** [AudioDevice::from_name] and the device lookup *)

(** X1: [from_name] accepts exactly the names that are not blank and end,
    ignoring ASCII case, in ["(input)"] or ["(output)"]. *)
Theorem from_name_ok_iff (n : rstring) :
  (exists d, from_name n = Ok d) <->
  (is_empty (trim n) = false /\
   (ends_with (to_lowercase n) (lit "(input)") = true \/
    ends_with (to_lowercase n) (lit "(output)") = true)).
Proof.
  unfold from_name.
  destruct (is_empty (trim n)) eqn:E1;
  destruct (ends_with (to_lowercase n) (lit "(input)")) eqn:E2;
  destruct (ends_with (to_lowercase n) (lit "(output)")) eqn:E3;
  split; intros H;
  first [ destruct H as [d Hd]; discriminate
        | destruct H as [H _]; discriminate
        | destruct H as [_ [H|H]]; discriminate
        | eexists; reflexivity
        | split; auto ].
Qed.

Lemma strip_prefix_same_length (p a b : rstring) :
  List.length a = List.length p -> a <> p -> strip_prefix p (a ++ b) = None.
Proof.
  revert a. induction p as [|c p IH]; intros a Hl Hne.
  - destruct a; [congruence|discriminate].
  - destruct a as [|d a]; [discriminate|]. simpl in Hl |- *.
    destruct (Ascii.eqb c d) eqn:E; [|reflexivity].
    apply Ascii.eqb_eq in E. subst d. apply IH; [lia|congruence].
Qed.

Lemma length_to_lowercase (s : rstring) : List.length (to_lowercase s) = List.length s.
Proof. apply length_map. Qed.

Lemma trim_start_matches_none (f : nat) (p s : rstring) :
  strip_prefix p s = None -> trim_start_matches_fuel (S f) p s = s.
Proof. intros H. destruct p as [|c p]; [discriminate|]. cbn [trim_start_matches_fuel]. rewrite H. reflexivity. Qed.

(** X2: the type suffix is matched ignoring case but removed only when it
    is written in lowercase: a name ending in, e.g., ["(INPUT)"] gives an
    input device whose name keeps that suffix. *)
Theorem from_name_keeps_non_lowercase_suffix (x sfx : rstring) :
  to_lowercase sfx = lit "(input)" -> sfx <> lit "(input)" ->
  is_empty (trim (x ++ sfx)) = false ->
  from_name (x ++ sfx) = Ok (mk_device (trim (x ++ sfx)) Input).
Proof.
  intros Hl Hne He. unfold from_name. rewrite He.
  unfold to_lowercase. rewrite map_lower_app. fold (to_lowercase sfx). rewrite Hl.
  rewrite ends_with_app by (simpl; lia).
  assert (Hlen : List.length sfx = 7).
  { rewrite <- length_to_lowercase, Hl. reflexivity. }
  assert (Ht : trim_end_matches (x ++ sfx) (lit "(input)") = x ++ sfx).
  { unfold trim_end_matches. rewrite rev_app_distr.
    rewrite trim_start_matches_none.
    - rewrite <- rev_app_distr, rev_involutive. reflexivity.
    - apply strip_prefix_same_length.
      + rewrite length_rev, Hlen. reflexivity.
      + intros E. apply Hne. rewrite <- (rev_involutive sfx), E. reflexivity. }
  rewrite Ht. reflexivity.
Qed.

Lemma rstring_eqb_eq (a b : rstring) : rstring_eqb a b = true -> a = b.
Proof.
  revert b. induction a as [|c a IH]; intros [|d b] H; try discriminate; [reflexivity|].
  simpl in H. apply andb_prop in H as [H1 H2]. apply Ascii.eqb_eq in H1. subst.
  f_equal. apply IH, H2.
Qed.

Lemma device_to_string_snoc (d : AudioDevice) :
  exists u, device_to_string d = u ++ [")"%char].
Proof.
  unfold device_to_string. destruct (device_type d);
  eexists; rewrite !app_assoc; reflexivity.
Qed.

(** X3: the display form of a device always ends in [")"], so the
    ["default"] branch of [get_device_and_config] is never taken. *)
Theorem device_never_default (d : AudioDevice) : is_default_request d = false.
Proof.
  unfold is_default_request.
  destruct (rstring_eqb (device_to_string d) (lit "default")) eqn:E; [|reflexivity].
  apply rstring_eqb_eq in E. destruct (device_to_string_snoc d) as [u Hu].
  rewrite Hu in E. apply (f_equal (fun l => last l " "%char)) in E.
  rewrite last_last in E. discriminate.
Qed.

Lemma replace_fuel_nil (f : nat) (pat to : rstring) : replace_fuel f [] pat to = [].
Proof. destruct f; reflexivity. Qed.

Lemma replace_fuel_skip (x t p' to : rstring) (f : nat) :
  (forall c, In c x -> c <> "("%char) ->
  (forall u, t <> "("%char :: u) ->
  List.length x < f ->
  replace_fuel f (x ++ t) (" "%char :: "("%char :: p') to =
    x ++ replace_fuel (f - List.length x) t (" "%char :: "("%char :: p') to.
Proof.
  revert f. induction x as [|c x IH]; intros f Hx Ht Hf.
  - simpl. rewrite Nat.sub_0_r. reflexivity.
  - destruct f as [|f]; [simpl in Hf; lia|].
    simpl List.length. rewrite Nat.sub_succ.
    assert (Hs : strip_prefix (" "%char :: "("%char :: p') ((c :: x) ++ t) = None).
    { cbn [strip_prefix app]. destruct (Ascii.eqb " " c) eqn:E1; [|reflexivity].
      destruct x as [|d x]; cbn [strip_prefix app].
      - destruct t as [|e t]; [reflexivity|].
        destruct (Ascii.eqb "(" e) eqn:E2; [|reflexivity].
        apply Ascii.eqb_eq in E2. subst e. exfalso. apply (Ht t). reflexivity.
      - destruct (Ascii.eqb "(" d) eqn:E2; [|reflexivity].
        apply Ascii.eqb_eq in E2. subst d. exfalso. apply (Hx "("%char); [right; left|]; reflexivity. }
    cbn [replace_fuel app]. cbn [app] in Hs. rewrite Hs. f_equal.
    apply IH; [intros c' Hc'; apply Hx; right; exact Hc'|exact Ht|simpl in Hf; lia].
Qed.

Lemma replace_suffix_self (x p' : rstring) :
  (forall c, In c x -> c <> "("%char) ->
  replace (x ++ " "%char :: "("%char :: p') (" "%char :: "("%char :: p') [] = x.
Proof.
  intros Hx. unfold replace.
  rewrite (replace_fuel_skip x (" "%char :: "("%char :: p') p' [])
    by first [ exact Hx | intros u; discriminate | rewrite length_app; simpl; lia ].
  rewrite length_app.
  replace (S (List.length x + List.length (" "%char :: "("%char :: p')) - List.length x)
    with (S (S (S (List.length p')))) by (cbn [List.length]; lia).
  assert (Hs : strip_prefix (" "%char :: "("%char :: p') (" "%char :: "("%char :: p') = Some []).
  { rewrite <- (app_nil_r (" "%char :: "("%char :: p')) at 2. apply strip_prefix_self. }
  cbn [replace_fuel]. rewrite Hs. cbn [app]. rewrite ?replace_fuel_nil, ?app_nil_r. reflexivity.
Qed.

Lemma replace_no_paren (x p' : rstring) :
  (forall c, In c x -> c <> "("%char) ->
  replace x (" "%char :: "("%char :: p') [] = x.
Proof.
  intros Hx. unfold replace.
  pose proof (replace_fuel_skip x [] p' [] (S (List.length x)) Hx ltac:(discriminate) ltac:(lia))
    as H.
  rewrite app_nil_r, replace_fuel_nil, app_nil_r in H. exact H.
Qed.

Lemma replace_input_in_output (x : rstring) :
  (forall c, In c x -> c <> "("%char) ->
  replace (x ++ lit " (output)") (lit " (input)") [] = x ++ lit " (output)".
Proof.
  intros Hx. unfold replace.
  change (lit " (output)") with (" "%char :: "("%char :: lit "output)").
  change (lit " (input)") with (" "%char :: "("%char :: lit "input)").
  rewrite (replace_fuel_skip x _ (lit "input)") [])
    by first [ exact Hx | intros u; discriminate | rewrite length_app; simpl; lia ].
  rewrite length_app.
  change (List.length (" "%char :: "("%char :: lit "output)")) with 9.
  replace (S (List.length x + 9) - List.length x) with 10 by lia.
  reflexivity.
Qed.

(** X4: for a device whose name contains no ["("], the name
    [get_device_and_config] looks for among the cpal devices is the device's
    name with surrounding whitespace trimmed. *)
Theorem device_lookup_name_plain (d : AudioDevice) :
  (forall c, In c (name d) -> c <> "("%char) ->
  device_lookup_name d = trim (name d).
Proof.
  intros Hx. unfold device_lookup_name, device_to_string.
  destruct (device_type d).
  - change (lit " (" ++ lit "input" ++ lit ")") with (" "%char :: "("%char :: lit "input)").
    change (lit " (input)") with (" "%char :: "("%char :: lit "input)").
    rewrite replace_suffix_self by exact Hx.
    change (lit " (output)") with (" "%char :: "("%char :: lit "output)").
    rewrite replace_no_paren by exact Hx. reflexivity.
  - change (lit " (" ++ lit "output" ++ lit ")") with (lit " (output)").
    rewrite replace_input_in_output by exact Hx.
    change (lit " (output)") with (" "%char :: "("%char :: lit "output)").
    rewrite replace_suffix_self by exact Hx. reflexivity.
Qed.

Lemma collect_devices_In (keep : rstring -> bool) (dt : DeviceType)
    (names : list (result rstring Error)) (d : AudioDevice) :
  In d (collect_devices keep dt names) <->
  exists n, d = mk_device n dt /\ In (Ok n) names /\ keep n = true.
Proof.
  induction names as [|[n|e] rest IH]; simpl.
  - split; [intros []|intros (n & _ & [] & _)].
  - destruct (keep n) eqn:Hk; simpl; rewrite IH; split.
    + intros [<-|(m & Hm & Hin & Hkm)]; [exists n; auto|exists m; auto].
    + intros (m & Hm & [Heq|Hin] & Hkm); [injection Heq as <-; left; auto|right; exists m; auto].
    + intros (m & Hm & Hin & Hkm). exists m; auto.
    + intros (m & Hm & [Heq|Hin] & Hkm); [injection Heq as <-; congruence|exists m; auto].
  - rewrite IH. split.
    + intros (m & Hm & Hin & Hkm). exists m; auto.
    + intros (m & Hm & [Heq|Hin] & Hkm); [discriminate|exists m; auto].
Qed.

(** X5: every output device [list_audio_devices] returns has a name that
    contains neither ["speakers"] nor ["airpods"] in any ASCII letter case,
    and every input device whose name can be read is listed as an input
    device. *)
Theorem list_audio_devices_filter (ins outs : result (list (result rstring Error)) Error)
    (ds : list AudioDevice) :
  list_audio_devices ins outs = Ok ds ->
  (forall d, In d ds -> device_type d = Output ->
     contains (to_lowercase (name d)) (lit "speakers") = false /\
     contains (to_lowercase (name d)) (lit "airpods") = false) /\
  (forall il n, ins = Ok il -> In (Ok n) il -> In (mk_device n Input) ds).
Proof.
  unfold list_audio_devices. intros H.
  destruct ins as [il|e]; [|discriminate]. destruct outs as [ol|e]; [|discriminate].
  injection H as <-. split.
  - intros d Hd Hty. apply in_app_or in Hd as [Hd|Hd];
      apply collect_devices_In in Hd as (n & -> & _ & Hk).
    + discriminate.
    + unfold should_include_output_device in Hk. simpl.
      apply andb_prop in Hk as [H1 H2]. apply negb_true_iff in H1, H2. auto.
  - intros il' n Heq Hin. injection Heq as <-. apply in_or_app. left.
    apply collect_devices_In. exists n. auto.
Qed.

(* ------------------------------------------------------------------ *)
(** ** WAV packaging and the down-mix *)







Lemma chunks_fuel_length {A} (n : nat) (l : list A) (f : nat) :
  0 < n -> List.length l <= f ->
  List.length (chunks_fuel f n l) = (List.length l + n - 1) / n.
Proof.
  intros Hn. revert l. induction f as [|f IH]; intros l Hf.
  - destruct l; [|simpl in Hf; lia]. simpl. symmetry. apply Nat.div_small. lia.
  - destruct l as [|a l'].
    + simpl. symmetry. apply Nat.div_small. lia.
    + cbn [chunks_fuel]. cbn [List.length].
      rewrite IH by (rewrite length_skipn; cbn [List.length] in *; lia).
      rewrite length_skipn. cbn [List.length]. set (L := List.length l').
      destruct (Nat.le_gt_cases n (S L)) as [Hge|Hlt].
      * replace (S L - n + n - 1) with L by lia.
        replace (S L + n - 1) with (L + 1 * n) by lia.
        rewrite Nat.div_add by lia. lia.
      * replace (S L - n + n - 1) with (n - 1) by lia.
        rewrite (Nat.div_small (n - 1)) by lia.
        replace (S L + n - 1) with (L + 1 * n) by lia.
        rewrite Nat.div_add by lia. rewrite Nat.div_small by lia. reflexivity.
Qed.

Lemma chunks_fuel_frames_tail {A} (n : nat) (a b : list A) (k f : nat) :
  0 < n -> List.length a = k * n -> 0 < List.length b <= n -> k < f ->
  chunks_fuel f n (a ++ b) = map (fun i => firstn n (skipn (i * n) a)) (seq 0 k) ++ [b].
Proof.
  intros Hn. revert a f. induction k as [|k IH]; intros a f Ha Hb Hf.
  - destruct a; [|simpl in Ha; lia]. destruct f as [|f]; [lia|].
    destruct b as [|x b']; [simpl in Hb; lia|]. cbn [chunks_fuel app].
    rewrite firstn_all2, skipn_all2 by (simpl in *; lia).
    destruct f; reflexivity.
  - destruct f as [|f]; [lia|].
    destruct a as [|x a'] eqn:Ea; [simpl in Ha; lia|]. rewrite <- Ea in Ha |- *.
    cbn [chunks_fuel]. rewrite Ea. cbn [app]. rewrite <- Ea.
    change (x :: a' ++ b) with ((x :: a') ++ b). rewrite <- Ea.
    rewrite firstn_app, skipn_app.
    replace (n - List.length a) with 0 by nia. rewrite firstn_O, skipn_O, app_nil_r.
    rewrite (IH (skipn n a) f) by (rewrite ?length_skipn; nia).
    cbn [seq map]. rewrite <- seq_shift, map_map. cbn [app]. f_equal.
    f_equal. apply map_ext. intros i. rewrite skipn_skipn. do 2 f_equal. lia.
Qed.

(** X7: the down-mix of [resample] yields one sample per started frame,
    i.e. [ceil(len / input_channels)] samples; when the input ends with a
    partial frame of [r < input_channels] samples, the last sample is their
    sum divided by [input_channels], not by [r]. *)
Theorem downmix_partial_frame (input_channels : nat) (input : list Q) :
  0 < input_channels ->
  List.length (downmix input_channels input) =
    (List.length input + input_channels - 1) / input_channels /\
  (forall full tail, input = full ++ tail ->
     List.length full mod input_channels = 0 ->
     0 < List.length tail < input_channels ->
     last (downmix input_channels input) 0%Q = (Qsum tail / Q_of_nat input_channels)%Q).
Proof.
  intros Hn. split.
  - unfold downmix, chunks. rewrite length_map. apply chunks_fuel_length; lia.
  - intros full tail -> Hmod Ht.
    set (k := List.length full / input_channels).
    assert (Hk : List.length full = k * input_channels).
    { pose proof (Nat.div_mod_eq (List.length full) input_channels) as E. rewrite Hmod in E. lia. }
    unfold downmix, chunks.
    rewrite (chunks_fuel_frames_tail input_channels full tail k) by (rewrite ?length_app; nia).
    rewrite map_app. simpl map. rewrite last_last. reflexivity.
Qed.

Lemma from_name_keeps_non_lowercase_suffix_witness :
  (to_lowercase (lit "(INPUT)") = lit "(input)" /\ lit "(INPUT)" <> lit "(input)" /\
   is_empty (trim (lit "Mic " ++ lit "(INPUT)")) = false) /\
  from_name (lit "Mic " ++ lit "(INPUT)") =
    Ok (mk_device (trim (lit "Mic " ++ lit "(INPUT)")) Input).
Proof.
  assert (H1 : to_lowercase (lit "(INPUT)") = lit "(input)") by reflexivity.
  assert (H2 : lit "(INPUT)" <> lit "(input)") by (intros H; vm_compute in H; discriminate).
  assert (H3 : is_empty (trim (lit "Mic " ++ lit "(INPUT)")) = false) by reflexivity.
  split; [auto|].
  exact (from_name_keeps_non_lowercase_suffix (lit "Mic ") (lit "(INPUT)") H1 H2 H3).
Defined.

Lemma device_lookup_name_plain_witness :
  (forall c, In c (name (mk_device (lit "Mic 1") Input)) -> c <> "("%char) /\
  device_lookup_name (mk_device (lit "Mic 1") Input) = trim (lit "Mic 1").
Proof.
  assert (H : forall c, In c (name (mk_device (lit "Mic 1") Input)) -> c <> "("%char).
  { intros c Hc ->. vm_compute in Hc.
    repeat (destruct Hc as [Hc|Hc]; [discriminate|]). exact Hc. }
  split; [exact H|]. exact (device_lookup_name_plain (mk_device (lit "Mic 1") Input) H).
Defined.

Lemma list_audio_devices_filter_witness :
  let ins := Ok [Ok (lit "Mic"); Err (anyhow (lit "no name"))] in
  let outs := Ok [Ok (lit "MacBook AirPods"); Ok (lit "USB out")] in
  let ds := [mk_device (lit "Mic") Input; mk_device (lit "USB out") Output] in
  list_audio_devices ins outs = Ok ds /\
  ((forall d, In d ds -> device_type d = Output ->
     contains (to_lowercase (name d)) (lit "speakers") = false /\
     contains (to_lowercase (name d)) (lit "airpods") = false) /\
   (forall il n, ins = Ok il -> In (Ok n) il -> In (mk_device n Input) ds)).
Proof.
  intros ins outs ds.
  assert (H : list_audio_devices ins outs = Ok ds) by reflexivity.
  split; [exact H|]. exact (list_audio_devices_filter ins outs ds H).
Defined.

Lemma downmix_partial_frame_witness :
  0 < 2 /\
  (List.length (downmix 2 [1; 2; 3]%Q) = (List.length [1; 2; 3]%Q + 2 - 1) / 2 /\
   (forall full tail, [1; 2; 3]%Q = full ++ tail ->
      List.length full mod 2 = 0 -> 0 < List.length tail < 2 ->
      last (downmix 2 [1; 2; 3]%Q) 0%Q = (Qsum tail / Q_of_nat 2)%Q)).
Proof.
  split; [lia|]. apply (downmix_partial_frame 2 [1; 2; 3]%Q). lia.
Defined.

(* ------------------------------------------------------------------ *)
(** ** [perform_stt] and [handle_stt] *)

Lemma concat_chunks_fuel {A} (n f : nat) (l : list A) :
  0 < n -> List.length l <= f -> concat (chunks_fuel f n l) = l.
Proof.
  intros Hn. revert l. induction f as [|f IH]; intros l Hf.
  - destruct l; [reflexivity|simpl in Hf; lia].
  - destruct l as [|x l']; [reflexivity|].
    cbn [chunks_fuel concat].
    rewrite IH by (rewrite length_skipn; cbn [List.length] in *; lia).
    apply firstn_skipn.
Qed.

Lemma concat_chunks {A} (n : nat) (l : list A) : 0 < n -> concat (chunks n l) = l.
Proof. intros Hn. apply concat_chunks_fuel; lia. Qed.

Section PipelineFacts.
Variable sinc : Q -> Q -> nat -> nat -> list (list Q) -> result (list (list Q)) Error.
Variable VS : Type.
Variable vad : VS -> list Q -> VS * result bool Error.
Variable enc : list Q -> N -> nat -> rstring -> result unit Error.
Variable now : rstring.
Variable dbg : Error -> rstring.

Lemma vad_filter_never_voiced (vs : VS) (frames : list (list Q)) (acc : list Q) :
  (forall s f, snd (vad s f) <> Ok true) -> snd (vad_filter VS vad vs frames acc) = acc.
Proof.
  intros H. revert vs acc. induction frames as [|fr rest IH]; intros vs acc; [reflexivity|].
  cbn [vad_filter]. specialize (H vs fr).
  destruct (vad vs fr) as [vs' r] eqn:E. rewrite IH. simpl in H.
  destruct r as [[|]|]; [congruence|reflexivity|reflexivity].
Qed.

Lemma vad_filter_all_voiced (vs : VS) (frames : list (list Q)) (acc : list Q) :
  (forall s f, snd (vad s f) = Ok true) ->
  snd (vad_filter VS vad vs frames acc) = acc ++ concat frames.
Proof.
  intros H. revert vs acc. induction frames as [|fr rest IH]; intros vs acc.
  - simpl. symmetry. apply app_nil_r.
  - cbn [vad_filter concat]. specialize (H vs fr).
    destruct (vad vs fr) as [vs' r] eqn:E. simpl in H. subst r.
    rewrite IH. symmetry. apply app_assoc.
Qed.

(** X8: with a VAD that never answers [Ok(true)] (e.g. one whose every call
    fails), [perform_stt] never calls an engine: it fails with the
    resampling error, or else with the [NoSpeech] error. *)
Theorem perform_stt_vad_never_voiced (vs : VS) (a : AudioInput) (primary : Engine)
    (fallback : option Engine) (out : option rstring) :
  (forall s f, snd (vad s f) <> Ok true) ->
  snd (perform_stt sinc VS vad enc now dbg vs a primary fallback out) =
    match stt_audio sinc a with
    | Err e => Err e
    | Ok _ => Err no_speech_error
    end.
Proof.
  intros H. unfold perform_stt.
  destruct (stt_audio sinc a) as [[audio ch]|e]; [|reflexivity].
  pose proof (vad_filter_never_voiced vs (chunks 160 audio) [] H) as Hs.
  destruct (vad_filter VS vad vs (chunks 160 audio) []) as [vs' sp]. simpl in Hs. subst sp.
  reflexivity.
Qed.

(** X9: with a VAD that accepts every frame, the speech buffer is the whole
    (resampled) audio: the primary engine is called on all of it, and its
    transcription is returned when no output directory is set. *)
Theorem perform_stt_all_voiced (vs : VS) (a : AudioInput) (primary : Engine)
    (fallback : option Engine) (audio : list Q) (ch : nat) (t : rstring) :
  (forall s f, snd (vad s f) = Ok true) ->
  stt_audio sinc a = Ok (audio, ch) -> audio <> [] ->
  primary audio SAMPLE_RATE ch (device a) = Ok t ->
  snd (perform_stt sinc VS vad enc now dbg vs a primary fallback None) = Ok (t, None).
Proof.
  intros Hv Ha Hne Hp. unfold perform_stt. rewrite Ha.
  pose proof (vad_filter_all_voiced vs (chunks 160 audio) [] Hv) as Hs.
  rewrite concat_chunks in Hs by lia.
  destruct (vad_filter VS vad vs (chunks 160 audio) []) as [vs' sp]. simpl in Hs. subst sp.
  destruct audio as [|x rest]; [congruence|]. cbn [is_nil]. rewrite Hp. reflexivity.
Qed.

(** X10: a successful [perform_stt] means the resampled audio passed the VAD
    with some speech left, the transcription came from the primary engine
    or, after its failure, from the configured fallback, both called on the
    speech samples at [SAMPLE_RATE]; with an output directory the original
    audio was encoded to the returned MP4 path, and without one no path is
    returned. *)
Theorem perform_stt_ok_inv (vs : VS) (a : AudioInput) (primary : Engine)
    (fallback : option Engine) (out : option rstring) (t : rstring) (p : option rstring) :
  snd (perform_stt sinc VS vad enc now dbg vs a primary fallback out) = Ok (t, p) ->
  exists audio ch vs' speech,
    stt_audio sinc a = Ok (audio, ch) /\
    vad_filter VS vad vs (chunks 160 audio) [] = (vs', speech) /\ speech <> [] /\
    (primary speech SAMPLE_RATE ch (device a) = Ok t \/
     exists e f, primary speech SAMPLE_RATE ch (device a) = Err e /\ fallback = Some f /\
       f speech SAMPLE_RATE ch (device a) = Ok t) /\
    match out with
    | None => p = None
    | Some o => p = Some (mp4_file_path now o a) /\
        enc (data a) (sample_rate a) (channels a) (mp4_file_path now o a) = Ok tt
    end.
Proof.
  unfold perform_stt. intros H.
  destruct (stt_audio sinc a) as [[audio ch]|e] eqn:Ea; [|discriminate].
  destruct (vad_filter VS vad vs (chunks 160 audio) []) as [vs' sp] eqn:Ev.
  destruct sp as [|x sp']; [discriminate|]. cbn [is_nil snd] in H.
  set (sp := x :: sp') in *.
  exists audio, ch, vs', sp. split; [reflexivity|]. split; [exact Ev|].
  split; [unfold sp; discriminate|].
  assert (Hout : forall t', Ok t' = (Ok t : result rstring Error) ->
            match out with
            | Some o =>
                match enc (data a) (sample_rate a) (channels a) (mp4_file_path now o a) with
                | Ok _ => Ok (t', Some (mp4_file_path now o a))
                | Err e => Err e
                end
            | None => Ok (t', None)
            end = Ok (t, p) ->
            match out with
            | None => p = None
            | Some o => p = Some (mp4_file_path now o a) /\
                enc (data a) (sample_rate a) (channels a) (mp4_file_path now o a) = Ok tt
            end).
  { intros t' _ Ho. destruct out as [o|].
    - destruct (enc (data a) (sample_rate a) (channels a) (mp4_file_path now o a))
        as [[]|e] eqn:Ee; [|discriminate].
      injection Ho as <- <-. auto.
    - injection Ho as <- <-. reflexivity. }
  destruct (primary sp SAMPLE_RATE ch (device a)) as [r|e] eqn:Ep.
  - assert (r = t).
    { destruct out as [o|]; [destruct (enc _ _ _ _); [|discriminate]|];
        injection H; auto. }
    subst r. split; [left; reflexivity|]. exact (Hout t eq_refl H).
  - destruct fallback as [f|]; [|destruct out; discriminate].
    destruct (f sp SAMPLE_RATE ch (device a)) as [r|e2] eqn:Ef; [|discriminate].
    assert (r = t).
    { destruct out as [o|]; [destruct (enc _ _ _ _); [|discriminate]|];
        injection H; auto. }
    subst r. split; [right; exists e, f; auto|]. exact (Hout t eq_refl H).
Qed.

(** X12: the result [handle_stt] sends always carries the input and the
    timestamp it was given; it has a transcription exactly when it has no
    error, an errored result has an empty path, the only state it ever
    publishes is [RecordingFinished], and it publishes it exactly when
    [perform_stt] failed with the [NoSpeech] kind. *)
Theorem handle_stt_result_shape (vs : VS) (a : AudioInput) (primary : Engine)
    (fallback : option Engine) (out : option rstring) (ts : N) :
  let h := handle_stt sinc VS vad enc now dbg vs a primary fallback out ts in
  let r := fst (snd h) in
  let st := snd (snd h) in
  input r = a /\ timestamp r = ts /\
  (transcription r = None <-> error r <> None) /\
  (error r <> None -> path r = []) /\
  (st = None \/ st = Some RecordingFinished) /\
  (st = Some RecordingFinished <->
     exists e, snd (perform_stt sinc VS vad enc now dbg vs a primary fallback out) = Err e /\
       err_no_speech e = true).
Proof.
  unfold handle_stt. cbv zeta.
  destruct (perform_stt sinc VS vad enc now dbg vs a primary fallback out) as [vs' [[t p]|e]].
  - cbn. repeat split; try reflexivity.
    + discriminate.
    + intros H. exfalso. apply H. reflexivity.
    + intros H. exfalso. apply H. reflexivity.
    + left; reflexivity.
    + discriminate.
    + intros (e & He & _). discriminate.
  - cbn. repeat split; try reflexivity.
    + discriminate.
    + destruct (err_no_speech e); [right|left]; reflexivity.
    + intros H. exists e. split; [reflexivity|]. destruct (err_no_speech e); [reflexivity|discriminate].
    + intros (e' & He & Hn). injection He as <-. rewrite Hn. reflexivity.
Qed.
End PipelineFacts.

(** X11: the device part of the MP4 file name written by [perform_stt]
    contains none of the characters it sanitises: blank, [':'], ['/'] and
    ['\']. *)
Theorem mp4_device_part_sanitized (dev : rstring) (c : ascii) :
  In c (map sanitize_char dev) ->
  c <> " "%char /\ c <> ":"%char /\ c <> "/"%char /\ c <> "\"%char.
Proof.
  intros Hin. apply in_map_iff in Hin as (x & <- & _). unfold sanitize_char.
  cbn [existsb].
  destruct (Ascii.eqb x " ") eqn:E1; [cbn [orb]; repeat split; discriminate|].
  destruct (Ascii.eqb x ":") eqn:E2; [cbn [orb]; repeat split; discriminate|].
  destruct (Ascii.eqb x "/") eqn:E3; [cbn [orb]; repeat split; discriminate|].
  destruct (Ascii.eqb x "\") eqn:E4; [cbn [orb]; repeat split; discriminate|].
  cbn [orb]. repeat split; intros Heq; subst x; rewrite ?Ascii.eqb_refl in *; discriminate.
Qed.

Lemma perform_stt_vad_never_voiced_witness :
  (forall s f, snd (failing_vad s f) <> Ok true) /\
  snd (perform_stt id_sinc unit failing_vad encode_ok [] err_msg tt mic_input hello_engine None None) =
    match stt_audio id_sinc mic_input with
    | Err e => Err e
    | Ok _ => Err no_speech_error
    end.
Proof.
  assert (H : forall s f, snd (failing_vad s f) <> Ok true) by (intros s f; simpl; discriminate).
  split; [exact H|].
  exact (perform_stt_vad_never_voiced id_sinc unit failing_vad encode_ok [] err_msg tt mic_input
           hello_engine None None H).
Defined.

Lemma perform_stt_all_voiced_witness :
  ((forall s f, snd (voiced_vad s f) = Ok true) /\
   stt_audio id_sinc mic_input = Ok ([0%Q; 0%Q], 1) /\ [0%Q; 0%Q] <> [] /\
   hello_engine [0%Q; 0%Q] SAMPLE_RATE 1 (device mic_input) = Ok (lit "hello world")) /\
  snd (perform_stt id_sinc unit voiced_vad encode_ok [] err_msg tt mic_input hello_engine
         (Some fallback_ok_engine) None) = Ok (lit "hello world", None).
Proof.
  assert (H1 : forall s f, snd (voiced_vad s f) = Ok true) by reflexivity.
  assert (H2 : stt_audio id_sinc mic_input = Ok ([0%Q; 0%Q], 1)) by reflexivity.
  assert (H3 : [0%Q; 0%Q] <> []) by discriminate.
  assert (H4 : hello_engine [0%Q; 0%Q] SAMPLE_RATE 1 (device mic_input) = Ok (lit "hello world"))
    by reflexivity.
  split; [auto|].
  exact (perform_stt_all_voiced id_sinc unit voiced_vad encode_ok [] err_msg tt mic_input
           hello_engine (Some fallback_ok_engine) [0%Q; 0%Q] 1 (lit "hello world") H1 H2 H3 H4).
Defined.

Lemma perform_stt_ok_inv_witness :
  let o := lit "/tmp/out" in
  let p := Some (mp4_file_path [] o mic_input) in
  snd (perform_stt id_sinc unit voiced_vad encode_ok [] err_msg tt mic_input failing_engine
         (Some fallback_ok_engine) (Some o)) = Ok (lit "fallback ok", p) /\
  exists audio ch vs' speech,
    stt_audio id_sinc mic_input = Ok (audio, ch) /\
    vad_filter unit voiced_vad tt (chunks 160 audio) [] = (vs', speech) /\ speech <> [] /\
    (failing_engine speech SAMPLE_RATE ch (device mic_input) = Ok (lit "fallback ok") \/
     exists e f, failing_engine speech SAMPLE_RATE ch (device mic_input) = Err e /\
       Some fallback_ok_engine = Some f /\ f speech SAMPLE_RATE ch (device mic_input) = Ok (lit "fallback ok")) /\
    match Some o with
    | None => p = None
    | Some o' => p = Some (mp4_file_path [] o' mic_input) /\
        encode_ok (data mic_input) (sample_rate mic_input) (channels mic_input)
          (mp4_file_path [] o' mic_input) = Ok tt
    end.
Proof.
  intros o p.
  assert (H : snd (perform_stt id_sinc unit voiced_vad encode_ok [] err_msg tt mic_input failing_engine
                     (Some fallback_ok_engine) (Some o)) = Ok (lit "fallback ok", p)) by reflexivity.
  split; [exact H|].
  exact (perform_stt_ok_inv id_sinc unit voiced_vad encode_ok [] err_msg tt mic_input failing_engine
           (Some fallback_ok_engine) (Some o) (lit "fallback ok") p H).
Defined.

Lemma mp4_device_part_sanitized_witness :
  In "_"%char (map sanitize_char (lit "USB: Mic")) /\
  ("_"%char <> " "%char /\ "_"%char <> ":"%char /\ "_"%char <> "/"%char /\ "_"%char <> "\"%char).
Proof.
  assert (H : In "_"%char (map sanitize_char (lit "USB: Mic"))) by (vm_compute; auto).
  split; [exact H|]. exact (mp4_device_part_sanitized (lit "USB: Mic") "_"%char H).
Defined.

(* ------------------------------------------------------------------ *)
(** ** The STT worker: what reaches the egress channel *)

Section WorkerEgress.
Variable VS : Type.
Variable handle : VS -> AudioInput -> VS * (TranscriptionResult * option RecordingState).
Hypothesis handle_input : forall vs a, input (fst (snd (handle vs a))) = a.

Lemma egress_inv_event (s : Sys VS) (e : Event) :
  (map input (egress s) = dequeued s \/
   (egress_open s = false /\ wpc s = WExited /\
    exists a, dequeued s = map input (egress s) ++ [a])) ->
  let s' := sys_event VS handle s e in
  map input (egress s') = dequeued s' \/
  (egress_open s' = false /\ wpc s' = WExited /\
   exists a, dequeued s' = map input (egress s') ++ [a]).
Proof.
  destruct s as [bv ver ing io eg eo pc vs0 dq]. cbn [egress dequeued egress_open wpc].
  intros Hinv. cbv zeta.
  destruct e; cbn [sys_event].
  - unfold worker_step. cbn [wpc]. destruct pc.
    + destruct (has_changed _ && _); unfold set_wpc; cbn [egress dequeued egress_open wpc];
        (destruct Hinv as [H|(_ & Hpc & _)]; [left; exact H|discriminate]).
    + cbn [ingress]. destruct ing as [|a rest].
      * destruct io; [exact Hinv|]. unfold set_wpc. cbn [egress dequeued egress_open wpc].
        destruct Hinv as [H|(_ & Hpc & _)]; [left; exact H|discriminate].
      * cbn [wvad]. pose proof (handle_input vs0 a) as Ha.
        destruct (handle vs0 a) as [vs' [res pub]]. cbn [fst snd] in Ha.
        destruct Hinv as [H|(_ & Hpc & _)]; [|discriminate].
        destruct (match pub with Some st => _ | None => _ end) as [v ver'].
        destruct eo; cbn [egress dequeued egress_open wpc].
        -- left. rewrite map_app, H. cbn [map]. rewrite Ha. reflexivity.
        -- right. split; [reflexivity|]. split; [reflexivity|]. exists a. rewrite H. reflexivity.
    + exact Hinv.
  - exact Hinv.
  - destruct pc; [destruct io|destruct io|]; exact Hinv.
  - exact Hinv.
  - cbn [egress dequeued egress_open wpc].
    destruct Hinv as [H|(_ & Hpc & Hd)]; [left; exact H|right; auto].
Qed.

Lemma egress_inv_run (s : Sys VS) (es : list Event) :
  (map input (egress s) = dequeued s \/
   (egress_open s = false /\ wpc s = WExited /\
    exists a, dequeued s = map input (egress s) ++ [a])) ->
  let s' := run_sys VS handle s es in
  map input (egress s') = dequeued s' \/
  (egress_open s' = false /\ wpc s' = WExited /\
   exists a, dequeued s' = map input (egress s') ++ [a]).
Proof.
  revert s. induction es as [|e es IH]; intros s H; [exact H|].
  apply IH. apply egress_inv_event. exact H.
Qed.
End WorkerEgress.

Lemma handle_stt_input (sinc : Q -> Q -> nat -> nat -> list (list Q) -> result (list (list Q)) Error)
    (VS : Type) (vad : VS -> list Q -> VS * result bool Error)
    (enc : list Q -> N -> nat -> rstring -> result unit Error) (now : rstring)
    (dbg : Error -> rstring) (primary : Engine) (fallback : option Engine)
    (out : option rstring) (ts : N) (vs : VS) (a : AudioInput) :
  input (fst (snd (handle_stt sinc VS vad enc now dbg vs a primary fallback out ts))) = a.
Proof.
  unfold handle_stt.
  destruct (perform_stt sinc VS vad enc now dbg vs a primary fallback out) as [vs' [[t p]|e]];
    reflexivity.
Qed.

(** X13: for the worker spawned by [create_comm_channel] with [handle_stt],
    in every run the results on the egress channel are those of the inputs
    it dequeued, in order, except that once the output receiver is dropped
    the worker may dequeue (and transcribe) one more input whose result is
    lost, after which it has exited. *)
Theorem worker_egress_matches_dequeued
    (sinc : Q -> Q -> nat -> nat -> list (list Q) -> result (list (list Q)) Error)
    (VS : Type) (vad : VS -> list Q -> VS * result bool Error)
    (enc : list Q -> N -> nat -> rstring -> result unit Error) (now : rstring)
    (dbg : Error -> rstring) (primary : Engine) (fallback : option Engine)
    (out : option rstring) (ts : N) (vs : VS) (es : list Event) :
  let handle := fun vs a => handle_stt sinc VS vad enc now dbg vs a primary fallback out ts in
  let s := run_sys VS handle (worker_init vs) es in
  map input (egress s) = dequeued s \/
  (egress_open s = false /\ wpc s = WExited /\
   exists a, dequeued s = map input (egress s) ++ [a]).
Proof.
  intros handle. apply egress_inv_run.
  - intros vs' a. apply handle_stt_input.
  - left. reflexivity.
Qed.

(* ------------------------------------------------------------------ *)
(** ** The [api_headers] parser of [initialize_stt_engines] *)

Lemma split_on_ne (sep : ascii) (s : rstring) : split_on sep s <> [].
Proof.
  destruct s as [|c s']; cbn [split_on]; [discriminate|].
  destruct (Ascii.eqb c sep); [discriminate|]. destruct (split_on sep s'); discriminate.
Qed.

Lemma length_split_on (sep : ascii) (s : rstring) :
  List.length (split_on sep s) = S (count_occ ascii_dec s sep).
Proof.
  induction s as [|c s' IH]; [reflexivity|]. cbn [split_on count_occ].
  destruct (Ascii.eqb c sep) eqn:E.
  - apply Ascii.eqb_eq in E. subst c. destruct (ascii_dec sep sep) as [_|n]; [|congruence].
    cbn [List.length]. rewrite IH. reflexivity.
  - destruct (ascii_dec c sep) as [Ec|_]; [subst c; rewrite Ascii.eqb_refl in E; discriminate|].
    pose proof (split_on_ne sep s') as Hne.
    destruct (split_on sep s') as [|p ps]; [congruence|]. exact IH.
Qed.

Lemma split_on_prefix (sep : ascii) (p s : rstring) :
  ~ In sep p ->
  split_on sep (p ++ s) =
    match split_on sep s with q :: qs => (p ++ q) :: qs | [] => [p] end.
Proof.
  induction p as [|c p IH]; intros Hp.
  - cbn [app]. pose proof (split_on_ne sep s) as Hne.
    destruct (split_on sep s); [congruence|reflexivity].
  - cbn [app split_on].
    destruct (Ascii.eqb c sep) eqn:E.
    + apply Ascii.eqb_eq in E. subst c. exfalso. apply Hp. left. reflexivity.
    + rewrite IH by (intros H; apply Hp; right; exact H).
      pose proof (split_on_ne sep s) as Hne.
      destruct (split_on sep s); [congruence|reflexivity].
Qed.

Lemma split_on_no_sep (sep : ascii) (p : rstring) : ~ In sep p -> split_on sep p = [p].
Proof.
  intros Hp. rewrite <- (app_nil_r p). rewrite split_on_prefix by exact Hp. reflexivity.
Qed.

Lemma split_on_app_sep (sep : ascii) (a b : rstring) :
  ~ In sep a -> split_on sep (a ++ sep :: b) = a :: split_on sep b.
Proof.
  intros Ha. rewrite split_on_prefix by exact Ha. cbn [split_on].
  rewrite Ascii.eqb_refl, app_nil_r. reflexivity.
Qed.

Lemma add_header_split (m : list (rstring * rstring)) (a b : rstring) :
  ~ In ":"%char a -> ~ In ":"%char b ->
  add_header m (a ++ ":"%char :: b) = hm_insert (trim a) (trim b) m.
Proof.
  intros Ha Hb. unfold add_header.
  rewrite split_on_app_sep, split_on_no_sep by assumption. reflexivity.
Qed.

(** X15: an entry of the [api_headers] argument is kept only when it has
    exactly one [':']: any other entry (no colon, or a value such as a URL
    that contains a colon) is silently dropped; an entry with one colon is
    inserted under its trimmed key with its trimmed value, replacing an
    earlier value of that key. *)
Theorem add_header_one_colon (m : list (rstring * rstring)) (header : rstring) :
  (count_occ ascii_dec header ":"%char <> 1 -> add_header m header = m) /\
  (forall k v, header = k ++ ":"%char :: v ->
     ~ In ":"%char k -> ~ In ":"%char v ->
     add_header m header = hm_insert (trim k) (trim v) m).
Proof.
  split.
  - intros Hc. unfold add_header.
    pose proof (length_split_on ":" header) as Hl.
    rewrite <- (length_map trim) in Hl.
    destruct (map trim (split_on ":" header)) as [|k [|v [|w rest]]];
      [reflexivity|reflexivity| |reflexivity].
    cbn [List.length] in Hl. lia.
  - intros k v -> Hk Hv. apply add_header_split; assumption.
Qed.

Lemma trim_start_app_nil (a b : rstring) :
  trim_start a = [] -> trim_start (a ++ b) = trim_start b.
Proof.
  induction a as [|c a IH]; intros H; [reflexivity|].
  cbn [app trim_start] in *. destruct (is_whitespace c); [apply IH, H|discriminate].
Qed.

Lemma trim_ws_cons (c : ascii) (v : rstring) :
  is_whitespace c = true -> trim (c :: v) = trim v.
Proof.
  intros Hc. unfold trim, trim_end. cbn [rev].
  destruct (trim_start (rev v)) as [|d r] eqn:E.
  - rewrite trim_start_app_nil by exact E. cbn [trim_start]. rewrite Hc. reflexivity.
  - rewrite trim_start_app by (rewrite E; discriminate). rewrite E.
    cbn [rev]. rewrite rev_app_distr. cbn [rev app]. cbn [trim_start]. rewrite Hc.
    reflexivity.
Qed.

Lemma rstring_eqb_refl (a : rstring) : rstring_eqb a a = true.
Proof. induction a as [|c a IH]; [reflexivity|]. cbn. rewrite Ascii.eqb_refl. exact IH. Qed.

Lemma rstring_eqb_iff (a b : rstring) : rstring_eqb a b = true <-> a = b.
Proof. split; [apply rstring_eqb_eq|intros ->; apply rstring_eqb_refl]. Qed.

Lemma hm_get_filter (k k' : rstring) (m : list (rstring * rstring)) :
  hm_get k (filter (fun kv => negb (rstring_eqb (fst kv) k')) m) =
    if rstring_eqb k k' then None else hm_get k m.
Proof.
  induction m as [|[a b] m IH]; cbn [filter hm_get fst].
  - destruct (rstring_eqb k k'); reflexivity.
  - destruct (rstring_eqb a k') eqn:E1; cbn [negb].
    + apply rstring_eqb_iff in E1. subst a. rewrite IH.
      destruct (rstring_eqb k k'); reflexivity.
    + cbn [hm_get]. rewrite IH.
      destruct (rstring_eqb k k') eqn:E2; [|reflexivity].
      apply rstring_eqb_iff in E2. subst k.
      destruct (rstring_eqb k' a) eqn:E3; [|reflexivity].
      apply rstring_eqb_iff in E3. subst a. rewrite rstring_eqb_refl in E1. discriminate.
Qed.

Lemma hm_get_insert (k k' v : rstring) (m : list (rstring * rstring)) :
  hm_get k (hm_insert k' v m) = if rstring_eqb k k' then Some v else hm_get k m.
Proof.
  unfold hm_insert. cbn [hm_get]. rewrite hm_get_filter.
  destruct (rstring_eqb k k'); reflexivity.
Qed.

Lemma hm_get_app (k : rstring) (l l' : list (rstring * rstring)) :
  hm_get k (l ++ l') = match hm_get k l with Some v => Some v | None => hm_get k l' end.
Proof.
  induction l as [|[a b] l IH]; [reflexivity|]. cbn [app hm_get].
  destruct (rstring_eqb k a); [reflexivity|exact IH].
Qed.

Lemma hm_get_fold_insert (k : rstring) (hs m : list (rstring * rstring)) :
  hm_get k (fold_left (fun m kv => hm_insert (fst kv) (snd kv) m) hs m) =
    match hm_get k (rev hs) with Some v => Some v | None => hm_get k m end.
Proof.
  revert m. induction hs as [|[a b] hs IH]; intros m; [reflexivity|].
  cbn [fold_left rev fst snd]. rewrite IH, hm_get_app, hm_get_insert. cbn [hm_get].
  destruct (hm_get k (rev hs)); [reflexivity|].
  destruct (rstring_eqb k a); reflexivity.
Qed.

Lemma split_on_join (sep : ascii) (p x : rstring) (xs : list rstring) :
  ~ In sep p -> Forall (fun y => ~ In sep y) (x :: xs) ->
  split_on sep (join_with (sep :: p) (x :: xs)) = x :: map (app p) xs.
Proof.
  revert x. induction xs as [|y xs IH]; intros x Hp Hall.
  - cbn [join_with map]. apply split_on_no_sep. inversion Hall; assumption.
  - change (join_with (sep :: p) (x :: y :: xs))
      with (x ++ (sep :: p) ++ join_with (sep :: p) (y :: xs)).
    inversion Hall as [|? ? Hx Hrest]. subst.
    cbn [app]. rewrite split_on_app_sep by exact Hx.
    rewrite split_on_prefix by exact Hp. rewrite IH by assumption. reflexivity.
Qed.

Lemma add_header_line (m : list (rstring * rstring)) (kv : rstring * rstring) :
  ~ In ":"%char (fst kv) -> ~ In ":"%char (snd kv) ->
  trim (fst kv) = fst kv -> trim (snd kv) = snd kv ->
  add_header m (header_line kv) = hm_insert (fst kv) (snd kv) m /\
  add_header m (" "%char :: header_line kv) = hm_insert (fst kv) (snd kv) m.
Proof.
  intros Hk Hv Tk Tv. unfold header_line.
  change (lit ": " ++ snd kv) with (":"%char :: " "%char :: snd kv).
  assert (Hv' : ~ In ":"%char (" "%char :: snd kv)).
  { intros [H|H]; [discriminate|exact (Hv H)]. }
  assert (Tv' : trim (" "%char :: snd kv) = snd kv) by (rewrite trim_ws_cons by reflexivity; exact Tv).
  split.
  - rewrite add_header_split by assumption. rewrite Tk, Tv'. reflexivity.
  - change (" "%char :: fst kv ++ ":"%char :: " "%char :: snd kv)
      with ((" "%char :: fst kv) ++ ":"%char :: " "%char :: snd kv).
    rewrite add_header_split.
    + rewrite trim_ws_cons by reflexivity. rewrite Tk, Tv'. reflexivity.
    + intros [H|H]; [discriminate|exact (Hk H)].
    + exact Hv'.
Qed.

(** X14: a header argument written as ["k1: v1; k2: v2; ..."], with keys and
    values free of [':'] and [';'] and without surrounding blanks, is parsed
    into a map in which every key maps to the last value given for it, and
    no other key is present. *)
Theorem parse_api_headers_roundtrip (hs : list (rstring * rstring)) (k : rstring) :
  Forall (fun kv => ~ In ":"%char (fst kv) /\ ~ In ";"%char (fst kv) /\
                    ~ In ":"%char (snd kv) /\ ~ In ";"%char (snd kv) /\
                    trim (fst kv) = fst kv /\ trim (snd kv) = snd kv) hs ->
  hm_get k (parse_api_headers (Some (join_with (lit "; ") (map header_line hs)))) =
    hm_get k (rev hs).
Proof.
  intros Hall. unfold parse_api_headers.
  destruct hs as [|kv hs']; [reflexivity|].
  cbn [map]. change (lit "; ") with (";"%char :: [" "%char]).
  assert (Hsemi : Forall (fun y => ~ In ";"%char y) (header_line kv :: map header_line hs')).
  { apply Forall_forall. intros y Hy. cbn [In] in Hy.
    assert (Hin : exists kv', In kv' (kv :: hs') /\ y = header_line kv').
    { destruct Hy as [<-|Hy]; [exists kv; split; [left|]; reflexivity|].
      apply in_map_iff in Hy as (kv' & <- & Hkv'). exists kv'. split; [right; exact Hkv'|reflexivity]. }
    destruct Hin as (kv' & Hkv' & ->).
    rewrite Forall_forall in Hall. destruct (Hall kv' Hkv') as (_ & Hk & _ & Hv & _).
    unfold header_line. intros H. apply in_app_or in H as [H|H]; [exact (Hk H)|].
    destruct H as [H|[H|H]]; [discriminate|discriminate|exact (Hv H)]. }
  rewrite split_on_join by (try exact Hsemi; intros [H|[]]; discriminate).
  cbn [fold_left].
  assert (Hfold : forall hs0 m,
    Forall (fun kv => ~ In ":"%char (fst kv) /\ ~ In ";"%char (fst kv) /\
                      ~ In ":"%char (snd kv) /\ ~ In ";"%char (snd kv) /\
                      trim (fst kv) = fst kv /\ trim (snd kv) = snd kv) hs0 ->
    fold_left add_header (map (app [" "%char]) (map header_line hs0)) m =
      fold_left (fun m kv => hm_insert (fst kv) (snd kv) m) hs0 m).
  { induction hs0 as [|kv0 hs0 IH]; intros m H0; [reflexivity|].
    inversion H0 as [|? ? (Hk & _ & Hv & _ & Tk & Tv) Hrest]. subst.
    cbn [map fold_left app]. rewrite (proj2 (add_header_line m kv0 Hk Hv Tk Tv)).
    apply IH, Hrest. }
  inversion Hall as [|? ? (Hk & _ & Hv & _ & Tk & Tv) Hrest]. subst.
  rewrite (proj1 (add_header_line [] kv Hk Hv Tk Tv)), Hfold by exact Hrest.
  change (fold_left (fun m kv => hm_insert (fst kv) (snd kv) m) hs' (hm_insert (fst kv) (snd kv) []))
    with (fold_left (fun m kv => hm_insert (fst kv) (snd kv) m) (kv :: hs') []).
  rewrite hm_get_fold_insert. destruct (hm_get k (rev (kv :: hs'))); reflexivity.
Qed.

Lemma parse_api_headers_roundtrip_witness :
  let hs := [(lit "Authorization", lit "Bearer abc"); (lit "X-Id", lit "1"); (lit "X-Id", lit "2")] in
  Forall (fun kv => ~ In ":"%char (fst kv) /\ ~ In ";"%char (fst kv) /\
                    ~ In ":"%char (snd kv) /\ ~ In ";"%char (snd kv) /\
                    trim (fst kv) = fst kv /\ trim (snd kv) = snd kv) hs /\
  hm_get (lit "X-Id") (parse_api_headers (Some (join_with (lit "; ") (map header_line hs)))) =
    hm_get (lit "X-Id") (rev hs).
Proof.
  intros hs.
  assert (H : Forall (fun kv => ~ In ":"%char (fst kv) /\ ~ In ";"%char (fst kv) /\
                    ~ In ":"%char (snd kv) /\ ~ In ";"%char (snd kv) /\
                    trim (fst kv) = fst kv /\ trim (snd kv) = snd kv) hs).
  { repeat constructor; try reflexivity;
      let Hi := fresh in intros Hi; vm_compute in Hi;
      repeat (destruct Hi as [Hi|Hi]; [discriminate Hi|]); exact Hi. }
  split; [exact H|]. exact (parse_api_headers_roundtrip hs (lit "X-Id") H).
Defined.

(* ------------------------------------------------------------------ *)
(** ** [initialize_stt_engines] *)

Section EngineFacts.
Variable CandleWhisperModel : Type.
Variable is_tiny : CandleWhisperModel -> bool.
Variable WM : Type.
Variable whisper_model_new : AudioTranscriptionEngine -> result WM Error.
Variable whisper_engine_new : WM -> result unit Error.

(** X17: a local model whose [WhisperEngine] cannot be created makes
    [initialize_stt_engines] panic, whatever Deepgram key or RestPipe URL is
    given: it is built as the fallback too, with [expect]. *)
Theorem initialize_stt_engines_panics_on_local_model (m : CandleWhisperModel) (wm : WM)
    (e : Error) (api_url api_headers deepgram_api_key : option rstring) :
  whisper_model_new (whisper_engine_of CandleWhisperModel is_tiny m) = Ok wm ->
  whisper_engine_new wm = Err e ->
  initialize_stt_engines CandleWhisperModel is_tiny WM whisper_model_new whisper_engine_new
    (Some m) api_url api_headers deepgram_api_key =
    Panicked (lit "Could not create the WhisperEngine").
Proof.
  intros H1 H2. unfold initialize_stt_engines, make_whisper.
  rewrite H1, H2.
  destruct deepgram_api_key as [key|]; destruct api_url as [u|]; reflexivity.
Qed.
End EngineFacts.

Lemma initialize_stt_engines_panics_on_local_model_witness :
  (model_loads (whisper_engine_of bool (fun b => b) true) = Ok tt /\
   engine_fails_to_load tt = Err (anyhow (lit "model weights missing"))) /\
  initialize_stt_engines bool (fun b => b) unit model_loads engine_fails_to_load
    (Some true) None None (Some (lit "dg-key-123")) =
    Panicked (lit "Could not create the WhisperEngine").
Proof.
  split; [split; reflexivity|].
  apply (initialize_stt_engines_panics_on_local_model bool (fun b => b) unit model_loads
           engine_fails_to_load true tt (anyhow (lit "model weights missing"))); reflexivity.
Defined.

(* ------------------------------------------------------------------ *)
(** ** The keyboard listener *)

Lemma keycode_eqb_refl (k : Keycode) : keycode_eqb k k = true.
Proof. destruct k; cbn; [reflexivity|reflexivity|apply Nat.eqb_refl]. Qed.

(** X18: a tick in which every key held was already held at the previous
    tick handles no key: nothing is published, the bus is unchanged and the
    task goes on, whatever the keys (Enter or Space included). *)
Theorem kb_tick_held_keys_ignored (last_keys keys : list Keycode) (st : RecordingState) :
  (forall k, In k keys -> In k last_keys) ->
  kb_tick last_keys keys st = (keys, (st, [], false)).
Proof.
  intros H. unfold kb_tick.
  assert (Hf : filter (fun k => negb (existsb (keycode_eqb k) last_keys)) keys = []).
  { induction keys as [|k ks IH]; [reflexivity|]. cbn [filter].
    assert (Hk : existsb (keycode_eqb k) last_keys = true).
    { apply existsb_exists. exists k. split; [apply H; left; reflexivity|apply keycode_eqb_refl]. }
    rewrite Hk. cbn [negb]. apply IH. intros k' Hk'. apply H. right. exact Hk'. }
  rewrite Hf. reflexivity.
Qed.

(** X19: when Enter is among the newly pressed keys, the keys after the
    first Enter are not handled: the listener publishes what the keys
    before it published, then [RecordingFinished], and returns. *)
Theorem kb_enter_finishes (st : RecordingState) (ks rest : list Keycode) :
  ~ In KEnter ks ->
  kb_handle_keys st (ks ++ KEnter :: rest) =
    (RecordingFinished, snd (fst (kb_handle_keys st ks)) ++ [RecordingFinished], true).
Proof.
  revert st. induction ks as [|k ks IH]; intros st Hn; [reflexivity|].
  assert (Hn' : ~ In KEnter ks) by (intros H; apply Hn; right; exact H).
  destruct k as [| |n].
  - exfalso. apply Hn. left. reflexivity.
  - cbn [app kb_handle_keys]. destruct st; try (apply IH; exact Hn').
    + rewrite (IH RecordingPaused Hn').
      destruct (kb_handle_keys RecordingPaused ks) as [[a b] c]. reflexivity.
    + rewrite (IH Recording Hn').
      destruct (kb_handle_keys Recording ks) as [[a b] c]. reflexivity.
  - cbn [app kb_handle_keys]. apply IH. exact Hn'.
Qed.

(** X20: the listener only ever publishes [Recording], [RecordingPaused]
    or [RecordingFinished]; from a bus value other than [Recording] and
    [RecordingPaused] (e.g. [Initializing]), Space is ignored and the only
    state it can publish is [RecordingFinished]. *)
Theorem kb_published_states (st : RecordingState) (keys : list Keycode) :
  (forall s, In s (snd (fst (kb_handle_keys st keys))) ->
     s = Recording \/ s = RecordingPaused \/ s = RecordingFinished) /\
  (st <> Recording -> st <> RecordingPaused ->
   forall s, In s (snd (fst (kb_handle_keys st keys))) -> s = RecordingFinished).
Proof.
  revert st. induction keys as [|k ks IH]; intros st.
  - split; [intros s []|intros _ _ s []].
  - destruct k as [| |n]; cbn [kb_handle_keys].
    + cbn [fst snd In]. split; [intros s [<-|[]]; auto|intros _ _ s [<-|[]]; reflexivity].
    + destruct st.
      * exact (IH Initializing).
      * destruct (IH RecordingPaused) as [H1 _].
        destruct (kb_handle_keys RecordingPaused ks) as [[a b] c]. cbn [fst snd] in *.
        split; [intros s [<-|Hs]; [auto|exact (H1 s Hs)]|intros Hr; congruence].
      * destruct (IH Recording) as [H1 _].
        destruct (kb_handle_keys Recording ks) as [[a b] c]. cbn [fst snd] in *.
        split; [intros s [<-|Hs]; [auto|exact (H1 s Hs)]|intros _ Hp; congruence].
      * exact (IH RecordingFinished).
      * exact (IH Stopping).
      * exact (IH Draining).
    + exact (IH st).
Qed.

(* ------------------------------------------------------------------ *)
(** ** [run_transcription_loop] and [shutdown_and_cleanup] *)

Lemma state_eqb_true (a b : RecordingState) : state_eqb a b = true -> a = b.
Proof. destruct a, b; cbn; congruence. Qed.

Lemma state_eqb_refl (a : RecordingState) : state_eqb a a = true.
Proof. destruct a; reflexivity. Qed.

Lemma run_loop_done (l : Loop) (es : list LoopEvent) :
  loop_done l = true -> run_loop l es = l.
Proof.
  revert l. induction es as [|e es IH]; intros l H; [reflexivity|].
  cbn [run_loop fold_left]. unfold loop_event at 2. rewrite H. apply IH. exact H.
Qed.

Lemma join_space_cons (t : rstring) (ts : list rstring) :
  join_space (t :: ts) = t ++ concat (map (fun u => " "%char :: u) ts).
Proof.
  revert t. induction ts as [|u ts IH]; intros t; [symmetry; apply app_nil_r|].
  change (join_space (t :: u :: ts)) with (t ++ [" "%char] ++ join_space (u :: ts)).
  rewrite IH. reflexivity.
Qed.

Lemma loop_results_from (acc : rstring) (evs : list (rstring * RecordingState)) :
  acc <> [] ->
  Forall (fun ev => snd ev <> RecordingFinished) evs ->
  fold_left loop_event (map (fun ev => LResult (Some (fst ev)) (snd ev)) evs) (mk_loop acc 0 false) =
    mk_loop (acc ++ concat (map (fun u => " "%char :: u) (map fst evs))) 0 false.
Proof.
  revert acc. induction evs as [|[t st] evs IH]; intros acc Hacc Hall.
  - cbn. rewrite app_nil_r. reflexivity.
  - inversion Hall as [|? ? Hs Hrest]. subst. cbn [snd] in Hs.
    cbn [map fold_left fst snd concat].
    assert (E : loop_event (mk_loop acc 0 false) (LResult (Some t) st) =
                mk_loop (acc ++ " "%char :: t) 0 false).
    { unfold loop_event. cbn [loop_done buffer].
      destruct acc as [|c acc']; [congruence|]. cbn [is_empty].
      rewrite <- app_assoc. destruct st; try reflexivity; congruence. }
    rewrite E, IH by (try exact Hrest; intros H; apply app_eq_nil in H as [H _]; contradiction).
    rewrite <- app_assoc. reflexivity.
Qed.

(** X21: as long as every received result has a non-empty transcription and
    the bus is not [RecordingFinished] when it is read, the loop goes on and
    its buffer is the transcriptions joined with single spaces. *)
Theorem transcription_loop_buffer (evs : list (rstring * RecordingState)) :
  Forall (fun ev => fst ev <> [] /\ snd ev <> RecordingFinished) evs ->
  run_loop loop_init (map (fun ev => LResult (Some (fst ev)) (snd ev)) evs) =
    mk_loop (join_space (map fst evs)) 0 false.
Proof.
  intros Hall. unfold run_loop, loop_init.
  destruct evs as [|[t0 s0] evs]; [reflexivity|].
  inversion Hall as [|? ? [Ht0 Hs0] Hrest]. subst. cbn [fst snd] in Ht0, Hs0.
  cbn [map fold_left fst snd].
  assert (E0 : loop_event (mk_loop [] 0 false) (LResult (Some t0) s0) = mk_loop t0 0 false).
  { unfold loop_event. cbn [loop_done buffer is_empty app].
    destruct s0; try reflexivity; congruence. }
  rewrite E0, loop_results_from.
  - rewrite join_space_cons. reflexivity.
  - exact Ht0.
  - eapply Forall_impl; [|exact Hrest]. intros ev [_ H]. exact H.
Qed.

(** X22: the loop never counts a timeout, and it ends exactly when some
    result arrives while the bus reads [RecordingFinished] or the bus
    changes to [Stopping]. *)
Theorem transcription_loop_ends (es : list LoopEvent) :
  consecutive_timeouts (run_loop loop_init es) = 0 /\
  (loop_done (run_loop loop_init es) = true <->
   (exists t, In (LResult t RecordingFinished) es) \/ In (LChanged Stopping) es).
Proof.
  cut (forall l, consecutive_timeouts l = 0 ->
       consecutive_timeouts (run_loop l es) = 0 /\
       (loop_done (run_loop l es) = true <->
        loop_done l = true \/ (exists t, In (LResult t RecordingFinished) es) \/
        In (LChanged Stopping) es)).
  { intros H. destruct (H loop_init eq_refl) as [H1 H2]. split; [exact H1|].
    rewrite H2. cbn [loop_init loop_done]. split; [|tauto].
    intros [H3|H3]; [discriminate|exact H3]. }
  induction es as [|e es IH]; intros l Hl.
  - cbn [run_loop fold_left]. split; [exact Hl|].
    split; [tauto|]. intros [H|[[t []]|[]]]. exact H.
  - cbn [run_loop fold_left]. fold (run_loop (loop_event l e) es).
    destruct (loop_done l) eqn:Hd.
    + assert (E : loop_event l e = l) by (unfold loop_event; rewrite Hd; reflexivity).
      rewrite E, run_loop_done by exact Hd. split; [exact Hl|]. rewrite Hd. tauto.
    + assert (Ht : consecutive_timeouts (loop_event l e) = 0)
        by (unfold loop_event; rewrite Hd; destruct e as [[t|] st|st]; cbn; exact Hl || reflexivity).
      destruct (IH (loop_event l e) Ht) as [IH1 IH2]. split; [exact IH1|].
      rewrite IH2. unfold loop_event at 1. rewrite Hd.
      split.
      * intros [H|[[t Ht']|H]].
        -- destruct e as [[t|] st|st]; cbn [loop_done] in H;
             apply state_eqb_true in H; subst st.
           ++ right. left. exists (Some t). left. reflexivity.
           ++ right. left. exists None. left. reflexivity.
           ++ right. right. left. reflexivity.
        -- right. left. exists t. right. exact Ht'.
        -- right. right. right. exact H.
      * intros [H|[[t [Ht'|Ht']]|[H|H]]].
        -- discriminate.
        -- subst e. left. destruct t; apply state_eqb_refl.
        -- right. left. exists t. exact Ht'.
        -- subst e. left. apply state_eqb_refl.
        -- right. right. exact H.
Qed.

Lemma join_recorders_keyboard (j : nat) (outs : list (result unit Error)) :
  In JoinKeyboard (join_recorders j outs) <-> Forall (fun o => exists u, o = Ok u) outs.
Proof.
  revert j. induction outs as [|o rest IH]; intros j; cbn [join_recorders].
  - split; [intros _; constructor|intros _; left; reflexivity].
  - split.
    + intros [H|H]; [discriminate|]. destruct o as [u|e]; [|destruct H].
      constructor; [exists u; reflexivity|]. apply (IH (S j)). exact H.
    + intros Hf. inversion Hf as [|? ? [u Hu] Hf']. subst. right. apply (IH (S j)). exact Hf'.
Qed.

Lemma join_recorders_joined (i j : nat) (outs : list (result unit Error)) :
  In (JoinRecorder i) (join_recorders j outs) <->
  j <= i < j + List.length outs /\ Forall (fun o => exists u, o = Ok u) (firstn (i - j) outs).
Proof.
  revert j. induction outs as [|o rest IH]; intros j; cbn [join_recorders].
  - cbn [In List.length]. split; [intros [H|[]]; discriminate|intros [H _]; lia].
  - split.
    + intros [H|H].
      * injection H as <-. split; [cbn [List.length]; lia|]. rewrite Nat.sub_diag. constructor.
      * destruct o as [u|e]; [|destruct H].
        apply IH in H as [Hr Hf]. cbn [List.length]. split; [lia|].
        replace (i - j) with (S (i - S j)) by lia. cbn [firstn].
        constructor; [exists u; reflexivity|exact Hf].
    + intros [Hr Hf]. destruct (Nat.eq_dec i j) as [->|Hne]; [left; reflexivity|right].
      replace (i - j) with (S (i - S j)) in Hf by lia. cbn [firstn] in Hf.
      inversion Hf as [|? ? [u Hu] Hf']. subst o. apply IH.
      cbn [List.length] in Hr. split; [lia|exact Hf'].
Qed.

(** X23: [shutdown_and_cleanup] joins recorder [i] exactly when the
    recorders before it all ended with [Ok], and it joins the keyboard task
    only when every recorder ended with [Ok]: the first recorder error
    returns before the remaining recorders and the keyboard task are
    awaited. *)
Theorem shutdown_joins (outs : list (result unit Error)) :
  (In JoinKeyboard (shutdown_and_cleanup outs) <-> Forall (fun o => exists u, o = Ok u) outs) /\
  (forall i, In (JoinRecorder i) (shutdown_and_cleanup outs) <->
     i < List.length outs /\ Forall (fun o => exists u, o = Ok u) (firstn i outs)).
Proof.
  unfold shutdown_and_cleanup. split; [apply join_recorders_keyboard|].
  intros i. rewrite join_recorders_joined, Nat.sub_0_r. split; intros [H1 H2]; split; auto; lia.
Qed.

Lemma kb_tick_held_keys_ignored_witness :
  (forall k, In k [KEnter; KSpace] -> In k [KSpace; KEnter; KOther 4]) /\
  kb_tick [KSpace; KEnter; KOther 4] [KEnter; KSpace] Recording =
    ([KEnter; KSpace], (Recording, [], false)).
Proof.
  assert (H : forall k, In k [KEnter; KSpace] -> In k [KSpace; KEnter; KOther 4]).
  { intros k [<-|[<-|[]]]; cbn; auto. }
  split; [exact H|]. exact (kb_tick_held_keys_ignored _ _ Recording H).
Defined.

Lemma kb_enter_finishes_witness :
  ~ In KEnter [KSpace; KOther 1; KSpace] /\
  kb_handle_keys Recording ([KSpace; KOther 1; KSpace] ++ KEnter :: [KSpace]) =
    (RecordingFinished,
     snd (fst (kb_handle_keys Recording [KSpace; KOther 1; KSpace])) ++ [RecordingFinished], true).
Proof.
  assert (H : ~ In KEnter [KSpace; KOther 1; KSpace]) by (intros [H|[H|[H|[]]]]; discriminate).
  split; [exact H|]. exact (kb_enter_finishes Recording _ [KSpace] H).
Defined.

Lemma transcription_loop_buffer_witness :
  let evs := [(lit "hello", Recording); (lit "world", RecordingPaused)] in
  Forall (fun ev => fst ev <> [] /\ snd ev <> RecordingFinished) evs /\
  run_loop loop_init (map (fun ev => LResult (Some (fst ev)) (snd ev)) evs) =
    mk_loop (join_space (map fst evs)) 0 false.
Proof.
  intros evs.
  assert (H : Forall (fun ev => fst ev <> [] /\ snd ev <> RecordingFinished) evs)
    by (repeat constructor; discriminate).
  split; [exact H|]. exact (transcription_loop_buffer evs H).
Defined.


(* ------------------------------------------------------------------ *)
(** ** The Deepgram and RestPipe engines *)







